(** * deletedups: duplicate removal between a keep tree and a clean tree

    A shallow embedding of [main.go] (functions [main], [scanSizes] and
    [scanHashes]) together with the parts of the Go standard library the
    program calls: [strings.Split], [strings.ToLower], [strings.HasSuffix],
    [filepath.Walk], [os.Lstat], [os.Open], [io.Copy], [os.Remove] and the
    [log] package.

    The file system is a finite store from path strings to inodes, the
    view the program has of it through the path-addressed calls above.
    Go maps are [gmap]s; the unspecified order of [range] over a map is an
    explicit parameter ([MapRange]). *)

From stdpp Require Import gmap strings list fin_maps.
From Stdlib Require Import ZArith Ascii.

Local Open Scope Z_scope.

(** ** Go's [int] on a 64-bit platform *)

Definition int (z : Z) : Z := (z + 2 ^ 63) `mod` 2 ^ 64 - 2 ^ 63.

(** ** Package [strings] *)

Module Strings.

Definition lowerByte (c : ascii) : ascii :=
  let n := N_of_ascii c in
  if ((65 <=? n) && (n <=? 90))%N then ascii_of_N (n + 32) else c.

(** [strings.ToLower] on byte strings: the letters A-Z are mapped to a-z.
    Bytes outside ASCII are kept as they are. *)
Fixpoint ToLower (s : string) : string :=
  match s with
  | EmptyString => EmptyString
  | String c s' => String (lowerByte c) (ToLower s')
  end.

(** [strings.HasPrefix]: [len(s) >= len(prefix) && s[:len(prefix)] == prefix]. *)
Definition HasPrefix (s prefix : string) : bool :=
  (String.length prefix <=? String.length s)%nat
  && String.eqb (String.substring 0 (String.length prefix) s) prefix.

(** [strings.HasSuffix]:
    [len(s) >= len(suffix) && s[len(s)-len(suffix):] == suffix]. *)
Definition HasSuffix (s suffix : string) : bool :=
  (String.length suffix <=? String.length s)%nat
  && String.eqb
       (String.substring (String.length s - String.length suffix)
                         (String.length suffix) s)
       suffix.

(** [strings.Split] for a non-empty separator: the text is cut at every
    leftmost, non-overlapping occurrence of [sep].  [skip] counts the
    bytes of a separator that are still to be dropped and [cur] is the
    piece read so far.  With an empty [sep] Go cuts after every
    character; on byte strings that is every byte. *)
Fixpoint split_from (sep : string) (skip : nat) (cur s : string) {struct s}
  : list string :=
  match s with
  | EmptyString => [cur]
  | String c s' =>
      match skip with
      | S k => split_from sep k cur s'
      | O =>
          if HasPrefix s sep
          then cur :: split_from sep (String.length sep - 1) EmptyString s'
          else split_from sep 0 (cur +:+ String c EmptyString) s'
      end
  end.

Fixpoint explode (s : string) : list string :=
  match s with
  | EmptyString => []
  | String c s' => String c EmptyString :: explode s'
  end.

Definition Split (s sep : string) : list string :=
  match sep with
  | EmptyString => explode s
  | _ => split_from sep 0 EmptyString s
  end.

End Strings.

(** ** Package [os]: errors, file modes, the file system *)

Module Os.

(** Go [error] values the program meets: the two sentinels of
    [path/filepath] and the [*PathError] of a failed system call. *)
Inductive error : Type :=
| SkipDir
| SkipAll
| PathError (op path errno : string).

Global Instance error_eq_dec : EqDecision error.
Proof. solve_decision. Defined.

(** [os.FileMode] is a [uint32]; the type bits are those of [io/fs]. *)
Definition FileMode := N.

Definition ModeDir        : FileMode := N.shiftl 1 31.
Definition ModeSymlink    : FileMode := N.shiftl 1 27.
Definition ModeDevice     : FileMode := N.shiftl 1 26.
Definition ModeNamedPipe  : FileMode := N.shiftl 1 25.
Definition ModeSocket     : FileMode := N.shiftl 1 24.
Definition ModeCharDevice : FileMode := N.shiftl 1 21.
Definition ModeIrregular  : FileMode := N.shiftl 1 19.

Definition ModeType : FileMode :=
  N.lor ModeDir (N.lor ModeSymlink (N.lor ModeNamedPipe (N.lor ModeSocket
    (N.lor ModeDevice (N.lor ModeCharDevice ModeIrregular))))).

(** [os.FileInfo], as far as the program reads it. *)
Record FileInfo : Type := { Mode : FileMode; Size : Z }.

Definition IsDir (info : FileInfo) : bool :=
  negb (N.land (Mode info) ModeDir =? 0)%N.

Definition IsRegular (info : FileInfo) : bool :=
  (N.land (Mode info) ModeType =? 0)%N.

(** What opening a path and reading it to the end gives. *)
Inductive contents : Type :=
| OpenFails (errno : string)
| ReadFails (errno : string)
| Bytes (data : list Byte.byte).

(** One entry of the store: what [Lstat] reports, what reading the
    directory reports (an errno, or the names in the sorted order of
    [readDirNames]), what reading the file reports, and whether
    unlinking it is refused (with which errno). *)
Record inode : Type := {
  i_info   : FileInfo;
  i_names  : string + list string;
  i_data   : contents;
  i_unlink : option string
}.

Abbreviation filesystem := (gmap string inode).

Definition ENOENT : string := "no such file or directory".

Definition Lstat (fs : filesystem) (path : string) : error + FileInfo :=
  match fs !! path with
  | Some nd => inr (i_info nd)
  | None => inl (PathError "lstat" path ENOENT)
  end.

Definition readDirNames (fs : filesystem) (path : string)
  : error + list string :=
  match fs !! path with
  | Some nd =>
      match i_names nd with
      | inl errno => inl (PathError "open" path errno)
      | inr names => inr names
      end
  | None => inl (PathError "open" path ENOENT)
  end.

(** [os.Open]: an error, or a handle.  The handle is what reading it to
    the end will give: a read error or the bytes. *)
Definition File : Type := error + list Byte.byte.

Definition Open (fs : filesystem) (path : string) : error + File :=
  match fs !! path with
  | Some nd =>
      match i_data nd with
      | OpenFails errno => inl (PathError "open" path errno)
      | ReadFails errno => inr (inl (PathError "read" path errno))
      | Bytes data => inr (inr data)
      end
  | None => inl (PathError "open" path ENOENT)
  end.

(** [os.Remove] on a path: the new store, and the error if any. *)
Definition Remove (fs : filesystem) (path : string)
  : filesystem * option error :=
  match fs !! path with
  | Some nd =>
      match i_unlink nd with
      | Some errno => (fs, Some (PathError "remove" path errno))
      | None => (delete path fs, None)
      end
  | None => (fs, Some (PathError "remove" path ENOENT))
  end.

End Os.

Export Os.

(** ** Package [path/filepath] *)

Module Filepath.

(** [filepath.Join(path, name)] for a directory path and the name of one
    of its entries: the two joined by a slash.  The lexical cleaning that
    [Join] applies on top of that (a root given with a trailing slash, or
    as ["."] or ["/"]) is not part of the model; the store is keyed by the
    paths as formed here. *)
Definition Join (path name : string) : string := path +:+ "/" +:+ name.

(** [filepath.WalkFunc]; the state [St] is what the closure captures and
    updates. *)
Definition WalkFunc (St : Type) : Type :=
  string → option FileInfo → option error → St → St * option error.

(** [err == x] for a sentinel [x]. *)
Definition is_err (e : option error) (x : error) : bool :=
  match e with
  | Some y => bool_decide (y = x)
  | None => false
  end.

Definition not_nil (e : option error) : bool :=
  match e with Some _ => true | None => false end.

(** The loop of [filepath.walk] over the names of a directory; [rec] is
    the recursive call [walk(filename, fileInfo, walkFn)]. *)
Fixpoint walk_names {St : Type}
    (rec : string → FileInfo → St → option (St * option error))
    (fs : filesystem) (path : string) (walkFn : WalkFunc St)
    (names : list string) (s : St) : option (St * option error) :=
  match names with
  | [] => Some (s, None)
  | name :: rest =>
      let filename := Join path name in
      match Lstat fs filename with
      | inl e =>
          let '(s', err) := walkFn filename None (Some e) s in
          if not_nil err && negb (is_err err SkipDir)
          then Some (s', err)
          else walk_names rec fs path walkFn rest s'
      | inr fileInfo =>
          match rec filename fileInfo s with
          | None => None
          | Some (s', err) =>
              if not_nil err
                 && (negb (IsDir fileInfo) || negb (is_err err SkipDir))
              then Some (s', err)
              else walk_names rec fs path walkFn rest s'
          end
      end
  end.

(** [filepath.walk].  Every call goes to a longer path that is in the
    store, so [fuel] bounds the nesting depth; [None] is the model
    running out of it. *)
Fixpoint walk {St : Type} (fuel : nat) (fs : filesystem) (path : string)
    (info : FileInfo) (walkFn : WalkFunc St) (s : St)
  : option (St * option error) :=
  match fuel with
  | O => None
  | S fuel' =>
      if negb (IsDir info) then Some (walkFn path (Some info) None s)
      else
        let r := readDirNames fs path in
        let err := match r with inl e => Some e | inr _ => None end in
        let names := match r with inl _ => [] | inr ns => ns end in
        let '(s1, err1) := walkFn path (Some info) err s in
        (* if one of err and err1 is not nil, walk returns what walkFn
           returned *)
        if not_nil err || not_nil err1 then Some (s1, err1)
        else
          walk_names (λ filename fileInfo s, walk fuel' fs filename fileInfo walkFn s)
                     fs path walkFn names s1
  end.

(** The longest path of the store. *)
Definition maxlen (fs : filesystem) : nat :=
  foldr (λ kv acc, Nat.max (String.length kv.1) acc) 0%nat (map_to_list fs).

(** [filepath.Walk], as in the current Go standard library: the function
    is called for a root whose lstat fails, and [SkipDir] or [SkipAll]
    coming back for the root gives a nil error. *)
Definition Walk {St : Type} (fs : filesystem) (root : string)
    (fn : WalkFunc St) (s : St) : option (St * option error) :=
  match
    match Lstat fs root with
    | inl e => Some (fn root None (Some e) s)
    | inr info => walk (S (maxlen fs)) fs root info fn s
    end
  with
  | None => None
  | Some (s', err) =>
      if is_err err SkipDir || is_err err SkipAll then Some (s', None)
      else Some (s', err)
  end.

End Filepath.

Export Filepath.

(** ** Package [encoding/hex] *)

Module Hex.

Definition digit (n : N) : ascii :=
  if (n <? 10)%N then ascii_of_N (48 + n) else ascii_of_N (87 + n).

(** [hex.EncodeToString]: two lower-case digits per byte. *)
Fixpoint EncodeToString (src : list Byte.byte) : string :=
  match src with
  | [] => EmptyString
  | b :: rest =>
      let n := Byte.to_N b in
      String (digit (N.shiftr n 4))
        (String (digit (N.land n 15)) (EncodeToString rest))
  end.

End Hex.

(** ** The program's effects

    The world is the file system and the lines written so far by [log]
    (and to standard error).  A computation ends with a value, with the
    process leaving through one of the program's exit sites, or with the
    model of [Walk] out of fuel ([Stuck]). *)

Inductive logline : Type :=
| LogRequired                                  (* "-keep and -clean are both required" and the usage *)
| LogDryRun                                    (* "dry run: no files will be deleted" *)
| LogScanning (root : string)                  (* "scanning %s for file sizes" *)
| LogKeepSizes (n : Z)                         (* "found %d keep file sizes" *)
| LogCleanSizes (n : Z)                        (* "found %d clean file sizes" *)
| LogWalkSkipping (e : error)                  (* "error walking directories, skipping: %v" *)
| LogWalkError (root : string) (e : error)     (* "error walking %s: %v" *)
| LogOpenSkipping (path : string) (e : error)  (* "error opening file %s to take hash; skipping: %v" *)
| LogHashSkipping (path : string) (e : error)  (* "error computing hash for %s; skipping: %v" *)
| LogFoundDup (cleanpath keeppath : string)    (* "found %s is dup of %s" *)
| LogDeleting (cleanpath keeppath : string)    (* "deleting %s (dup of %s)" *)
| LogRemoveError (cleanpath : string) (e : error) (* "error removing %s: %v" *)
| LogSummary (filecount bytecount : Z).        (* "found %d duplicate files with total size %d (...)" *)

(** The places where [main] leaves the process early, by line of [main.go]. *)
Inductive exit_site : Type :=
| ExitUsage        (* line 28 *)
| ExitScanKeep     (* line 40 *)
| ExitScanClean    (* line 46 *)
| ExitHashKeep     (* line 57 *)
| ExitHashClean    (* line 61 *)
| FatalRemove.     (* line 75, log.Fatalf *)

Inductive result (A : Type) : Type :=
| Ok (a : A)
| Exit (site : exit_site)
| Stuck.

Arguments Ok {A} a.
Arguments Exit {A} site.
Arguments Stuck {A}.

Record world : Type := World { disk : filesystem; logged : list logline }.

Definition M (A : Type) : Type := world → world * result A.

Definition ret {A} (a : A) : M A := λ w, (w, Ok a).

Definition bind {A B} (c : M A) (k : A → M B) : M B :=
  λ w, match c w with
       | (w', Ok a) => k a w'
       | (w', Exit site) => (w', Exit site)
       | (w', Stuck) => (w', Stuck)
       end.

Notation "'let*' x ':=' c 'in' k" := (bind c (λ x, k))
  (at level 10, x pattern, c at level 100, k at level 200).

Definition logPrintf (l : logline) : M unit :=
  λ w, (World (disk w) (logged w ++ [l]), Ok tt).

Definition osExit {A} (site : exit_site) : M A := λ w, (w, Exit site).

(** [log.Fatalf]: the line is written, then the process exits with status 1. *)
Definition logFatalf {A} (l : logline) (site : exit_site) : M A :=
  let* _ := logPrintf l in osExit site.

Definition osOpen (path : string) : M (error + File) :=
  λ w, (w, Ok (Open (disk w) path)).

Definition osRemove (path : string) : M (option error) :=
  λ w, let '(fs', err) := Remove (disk w) path in (World fs' (logged w), Ok err).

(** The exit status of the process: 1 at every exit site, 0 when [main]
    returns. *)
Definition status {A} (r : result A) : option Z :=
  match r with
  | Ok _ => Some 0
  | Exit _ => Some 1
  | Stuck => None
  end.

(** [for _, x := range l { acc = body(x, acc) }] *)
Fixpoint forM {A B} (l : list A) (acc : B) (body : A → B → M B) : M B :=
  match l with
  | [] => ret acc
  | x :: l' => let* acc' := body x acc in forM l' acc' body
  end.

(** The order in which [range] goes through a Go map is not specified:
    it is some arrangement of the map's entries. *)
Class MapRange : Type := {
  range : ∀ {K V : Type} `{Countable K}, gmap K V → list (K * V);
  range_perm : ∀ {K V : Type} `{Countable K} (m : gmap K V),
      range m ≡ₚ map_to_list m
}.

#[refine] Instance range_canonical : MapRange :=
  {| range := λ K V _ _ m, map_to_list m |}.
Proof. reflexivity. Defined.

(** Command-line flags after [flag.Parse]. *)
Record flags : Type := Flags {
  keep : string;
  clean : string;
  dry : bool;
  extensions : string
}.

Section Program.

(** [sha256.New] fed with the bytes, then [Sum(nil)]. *)
Variable Sum256 : list Byte.byte → list Byte.byte.

Context {R : MapRange}.

Abbreviation sizemap := (gmap Z (list string)).
Abbreviation hashmap := (gmap string string).

(** The value of the local variable [keep] after the loop over the
    suffixes (lines 103-109). *)
Definition keep_suffix (suffixes : list string) (path : string) : bool :=
  existsb (λ ext, Strings.HasSuffix (Strings.ToLower path) ("." +:+ ext))
          suffixes.

(** The closure passed to [filepath.Walk] in [scanSizes] (lines 88-118).
    It captures [names] and [suffixes]; the second part of its state is
    the lines it has written to the log.  The empty [if info.IsDir()] of
    lines 93-95 has no effect and is left out. *)
Definition scanSizes_fn (suffixes : list string)
  : WalkFunc (sizemap * list logline) :=
  λ path info inerr '(names, lg),
    match inerr with
    | Some e => ((names, lg ++ [LogWalkSkipping e]), Some SkipDir)
    | None =>
        match info with
        | None => ((names, lg), None)  (* Walk passes a nil info only with an error *)
        | Some info =>
            if negb (N.land (Mode info) ModeType =? 0)%N then
              (* skip everything but regular files *)
              ((names, lg), None)
            else if (0 <? length suffixes)%nat
                    && negb (keep_suffix suffixes path)
            then ((names, lg), None)
            else
              let size := int (Size info) in
              ((<[size := default [] (names !! size) ++ [path]]> names, lg),
               None)
        end
    end.

(** [scanSizes] (lines 86-124); a nil map is the empty map. *)
Definition scanSizes (root : string) (suffixes : list string)
  : M (sizemap * option error) :=
  λ w, match Walk (disk w) root (scanSizes_fn suffixes) (∅, []) with
       | None => (w, Stuck)
       | Some ((names, lg), Some e) =>
           (World (disk w) (logged w ++ lg ++ [LogWalkError root e]),
            Ok (∅, Some e))
       | Some ((names, lg), None) =>
           (World (disk w) (logged w ++ lg), Ok (names, None))
       end.

(** The body of the loop of [scanHashes] (lines 128-144). *)
Definition scanHashes_body (path : string) (files : hashmap) : M hashmap :=
  let* r := osOpen path in
  match r with
  | inl err => let* _ := logPrintf (LogOpenSkipping path err) in ret files
  | inr fp =>
      match fp with
      | inl err => let* _ := logPrintf (LogHashSkipping path err) in ret files
      | inr data =>
          let sum := Hex.EncodeToString (Sum256 data) in
          ret (<[sum := path]> files)
      end
  end.

(** [scanHashes] (lines 126-146). *)
Definition scanHashes (paths : list string) : M (hashmap * option error) :=
  let* files := forM paths ∅ scanHashes_body in
  ret (files, None).

(** The body of the inner loop of [main] (lines 65-79); the accumulator
    is [(filecount, bytecount)]. *)
Definition main_dup_body (dry : bool) (size : Z) (cleaners : hashmap)
    (entry : string * string) (acc : Z * Z) : M (Z * Z) :=
  let '(key, keeppath) := entry in
  let '(filecount, bytecount) := acc in
  match cleaners !! key with
  | Some cleanpath =>
      let filecount := int (filecount + 1) in
      let bytecount := int (bytecount + size) in
      let* _ :=
        (if dry then logPrintf (LogFoundDup cleanpath keeppath)
         else
           let* _ := logPrintf (LogDeleting cleanpath keeppath) in
           let* err := osRemove cleanpath in
           match err with
           | Some e => logFatalf (LogRemoveError cleanpath e) FatalRemove
           | None => ret tt
           end) in
      ret (filecount, bytecount)
  | None => ret (filecount, bytecount)
  end.

(** The body of the outer loop of [main] (lines 52-81). *)
Definition main_size_body (dry : bool) (cleanerSizes : sizemap)
    (entry : Z * list string) (acc : Z * Z) : M (Z * Z) :=
  let '(size, keeperNames) := entry in
  match cleanerSizes !! size with
  | Some cleanerNames =>
      let* (keepers, err) := scanHashes keeperNames in
      if not_nil err then osExit ExitHashKeep else
      let* (cleaners, err) := scanHashes cleanerNames in
      if not_nil err then osExit ExitHashClean else
      forM (range keepers) acc (main_dup_body dry size cleaners)
  | None => ret acc
  end.

(** [main] (lines 15-84), after [flag.Parse].  The megabyte and gigabyte
    figures of the summary line are floating-point renderings of the byte
    count and are not part of [LogSummary]. *)
Definition main (f : flags) : M unit :=
  if bool_decide (keep f = "") || bool_decide (clean f = "") then
    let* _ := logPrintf LogRequired in osExit ExitUsage
  else
  let* _ := (if dry f then logPrintf LogDryRun else ret tt) in
  let suffixes := Strings.Split (Strings.ToLower (extensions f)) "," in
  let* _ := logPrintf (LogScanning (keep f)) in
  let* (keeperSizes, err) := scanSizes (keep f) suffixes in
  if not_nil err then osExit ExitScanKeep else
  let* _ := logPrintf (LogKeepSizes (Z.of_nat (size keeperSizes))) in
  let* _ := logPrintf (LogScanning (clean f)) in
  let* (cleanerSizes, err) := scanSizes (clean f) suffixes in
  if not_nil err then osExit ExitScanClean else
  let* _ := logPrintf (LogCleanSizes (Z.of_nat (size cleanerSizes))) in
  let* (filecount, bytecount) :=
    forM (range keeperSizes) (0, 0) (main_size_body (dry f) cleanerSizes) in
  logPrintf (LogSummary filecount bytecount).

End Program.

(** ** Notions used to state the properties *)

(** The paths filed under a size; a missing key reads as the empty list. *)
Definition bucket (names : gmap Z (list string)) (sz : Z) : list string :=
  default [] (names !! sz).

(** The extension filter of [scanSizes]: an empty list accepts every path. *)
Definition accepts (suffixes : list string) (path : string) : bool :=
  negb (0 <? length suffixes)%nat || keep_suffix suffixes path.

(** [reaches fs root p]: [p] is [root], or lies below it through
    directories that are present and whose listing can be read. *)
Inductive reaches (fs : filesystem) : string → string → Prop :=
| reaches_here p : reaches fs p p
| reaches_below p nd names name q :
    fs !! p = Some nd →
    IsDir (i_info nd) = true →
    i_names nd = inr names →
    name ∈ names →
    reaches fs (Join p name) q →
    reaches fs p q.

(** [found fs suffixes root p sz]: [p] is a regular file of size [sz]
    reached from [root] and accepted by the extension filter. *)
Definition found (fs : filesystem) (suffixes : list string) (root p : string)
    (sz : Z) : Prop :=
  reaches fs root p ∧
  ∃ nd, fs !! p = Some nd ∧ IsRegular (i_info nd) = true ∧
        accepts suffixes p = true ∧ int (Size (i_info nd)) = sz.

(** Lines that report a skipped path. *)
Definition is_skip (l : logline) : bool :=
  match l with
  | LogWalkSkipping _ | LogOpenSkipping _ _ | LogHashSkipping _ _ => true
  | _ => false
  end.

(** The (keep path, clean path) pairs a log reports as found, and as
    being deleted. *)
Definition reported (lg : list logline) : list (string * string) :=
  omap (λ l, match l with LogFoundDup c k => Some (k, c) | _ => None end) lg.

Definition deleting (lg : list logline) : list (string * string) :=
  omap (λ l, match l with LogDeleting c k => Some (k, c) | _ => None end) lg.

(** What a traversal adds to the state of the closure: lines about
    skipped paths, and the paths [from] describes. *)
Definition scan_adds (from : string → Z → Prop)
    (names : gmap Z (list string)) (lg : list logline)
    (names' : gmap Z (list string)) (lg' : list logline) : Prop :=
  (∃ extra, lg' = lg ++ extra ∧ Forall (λ l, is_skip l = true) extra) ∧
  ∀ p sz, p ∈ bucket names' sz ↔ p ∈ bucket names sz ∨ from p sz.

(** The size map of a tree: what [scanSizes] returns for it. *)
Definition sizes (fs : filesystem) (root : string) (sfx : list string)
  : gmap Z (list string) :=
  match Walk fs root (scanSizes_fn sfx) (∅, []) with
  | Some ((names, _), _) => names
  | None => ∅
  end.

(** The suffix list [main] builds from the [-extensions] flag. *)
Definition suffixes_of (f : flags) : list string :=
  Strings.Split (Strings.ToLower (extensions f)) ",".

(** A file that cannot be opened, or cannot be read to the end. *)
Definition unreadable (fs : filesystem) (path : string) : Prop :=
  (∃ e, Open fs path = inl e) ∨ (∃ e, Open fs path = inr (inl e)).

(** The log lines of a duplicate pair (keep path, clean path). *)
Definition found_line (p : string * string) : logline := LogFoundDup p.2 p.1.
Definition deleting_line (p : string * string) : logline := LogDeleting p.2 p.1.

(** The store after the clean paths of the pairs have been unlinked. *)
Definition unlink_all (fs : filesystem) (pairs : list (string * string))
  : filesystem :=
  foldl (λ f p, delete p.2 f) fs pairs.

(** The counters after the pairs of one size have been counted. *)
Definition tally (size : Z) (acc : Z * Z) (pairs : list (string * string))
  : Z * Z :=
  foldl (λ a _, (int (a.1 + 1), int (a.2 + size))) acc pairs.

(** The pair an entry of the keep-side hash map makes with the clean side. *)
Definition dup_of (cleaners : gmap string string) (entry : string * string)
  : option (string * string) :=
  match cleaners !! entry.1 with
  | Some cleanpath => Some (entry.2, cleanpath)
  | None => None
  end.

Section Notions.

(** [sha256.New] fed with the bytes, then [Sum(nil)]. *)
Variable Sum256 : list Byte.byte → list Byte.byte.

Context {R : MapRange}.

(** The digest [scanHashes] computes for a path, if the file can be
    opened and read to the end. *)
Definition digest_of (fs : filesystem) (path : string) : option string :=
  match Open fs path with
  | inr (inr data) => Some (Hex.EncodeToString (Sum256 data))
  | _ => None
  end.

Definition hash_step (fs : filesystem) (files : gmap string string)
    (path : string) : gmap string string :=
  match digest_of fs path with
  | Some d => <[d := path]> files
  | None => files
  end.

(** The map [scanHashes] builds, as a fold over the paths. *)
Definition hashes (fs : filesystem) (paths : list string)
  : gmap string string :=
  foldl (hash_step fs) ∅ paths.

(** The pairs of one size: the keep-side hashes, in the order of
    [range], that the clean side has too. *)
Definition size_dups (fs : filesystem) (cleanerSizes : gmap Z (list string))
    (entry : Z * list string) : list (string * string) :=
  match cleanerSizes !! entry.1 with
  | Some cleanerNames =>
      omap (dup_of (hashes fs cleanerNames))
           (range (hashes fs entry.2))
  | None => []
  end.

(** All the pairs of a run, in the order it meets them. *)
Definition all_dups (fs : filesystem)
    (keeperSizes cleanerSizes : gmap Z (list string))
  : list (string * string) :=
  range keeperSizes ≫= size_dups fs cleanerSizes.

(** The counters after the sizes have been gone through. *)
Definition tally_all (fs : filesystem) (cleanerSizes : gmap Z (list string))
    (acc : Z * Z) (l : list (Z * list string)) : Z * Z :=
  foldl (λ a e, tally e.1 a (size_dups fs cleanerSizes e)) acc l.

End Notions.

(** ** Concrete file systems *)

(** A directory with mode 0755 and the given names. *)
Definition dir_node (names : list string) : inode :=
  {| i_info := {| Mode := N.lor ModeDir 493%N; Size := 4096 |};
     i_names := inr names;
     i_data := ReadFails "is a directory";
     i_unlink := Some "directory not empty" |}.

(** A regular file with mode 0644 and the given bytes. *)
Definition file_node (text : string) : inode :=
  {| i_info := {| Mode := 420%N; Size := Z.of_nat (String.length text) |};
     i_names := inl "not a directory";
     i_data := Bytes (String.list_byte_of_string text);
     i_unlink := None |}.

(** A regular file that cannot be unlinked. *)
Definition locked_file_node (text : string) : inode :=
  {| i_info := {| Mode := 420%N; Size := Z.of_nat (String.length text) |};
     i_names := inl "not a directory";
     i_data := Bytes (String.list_byte_of_string text);
     i_unlink := Some "permission denied" |}.

(** The scenario of the specification: [A.txt] in the keep tree, [B.txt]
    with the same ten bytes and [C.txt] with ten other bytes in the clean
    tree. *)
Definition scenario_fs : filesystem :=
  list_to_map
    [("k", dir_node ["A.txt"]);
     ("k/A.txt", file_node "0123456789");
     ("c", dir_node ["B.txt"; "C.txt"]);
     ("c/B.txt", file_node "0123456789");
     ("c/C.txt", file_node "abcdefghij")].

(** The same, with a [B.txt] that cannot be unlinked. *)
Definition locked_fs : filesystem :=
  <["c/B.txt" := locked_file_node "0123456789"]> scenario_fs.

(** One tree given as both roots. *)
Definition single_fs : filesystem :=
  list_to_map [("d", dir_node ["a.txt"]); ("d/a.txt", file_node "abc")].

(** A tree with a directory that cannot be listed, a name whose lstat
    fails, a symbolic link, and files beside and below them. *)
Definition damaged_fs : filesystem :=
  list_to_map
    [("r", dir_node ["bad"; "gone"; "link"; "ok.txt"; "sub"]);
     ("r/bad",
      {| i_info := {| Mode := N.lor ModeDir 448%N; Size := 4096 |};
         i_names := inl "permission denied";
         i_data := OpenFails "permission denied";
         i_unlink := Some "directory not empty" |});
     ("r/bad/hidden.txt", file_node "secret");
     ("r/link",
      {| i_info := {| Mode := N.lor ModeSymlink 511%N; Size := 6 |};
         i_names := inl "not a directory";
         i_data := Bytes (String.list_byte_of_string "hello");
         i_unlink := None |});
     ("r/ok.txt", file_node "hello");
     ("r/sub", dir_node ["deep.txt"]);
     ("r/sub/deep.txt", file_node "hello")].

(** A stand-in for SHA-256 in the examples, where only the equality of
    digests matters: the digest of the bytes is the bytes. *)
Definition plain_digest (data : list Byte.byte) : list Byte.byte := data.

(** ** Notions used to state further properties *)

(** The line [scanHashes] logs for a path it skips; [None] for a path it
    hashes. *)
Definition skip_line (fs : filesystem) (path : string) : option logline :=
  match Open fs path with
  | inl e => Some (LogOpenSkipping path e)
  | inr (inl e) => Some (LogHashSkipping path e)
  | inr (inr _) => None
  end.

(** The pairs the matching loop of [main] finds between two size maps: for
    a size and a digest, the last keep path and the last clean path of that
    size with that digest. *)
Definition matched Sum256 (fs : filesystem) (KS CS : gmap Z (list string))
    (k c : string) : Prop :=
  ∃ sz d,
    last (filter (λ p, digest_of Sum256 fs p = Some d) (bucket KS sz)) = Some k
    ∧ last (filter (λ p, digest_of Sum256 fs p = Some d) (bucket CS sz)) = Some c.

(** Every clean path of a matched pair can be unlinked. *)
Definition removable Sum256 (fs : filesystem) (KS CS : gmap Z (list string))
  : Prop :=
  ∀ k c nd,
    matched Sum256 fs KS CS k c → fs !! c = Some nd → i_unlink nd = None.

(** The size of the file at a path, as [scanSizes] files it. *)
Definition size_at (fs : filesystem) (path : string) : Z :=
  match fs !! path with
  | Some nd => int (Size (i_info nd))
  | None => 0
  end.

(** The sum of the sizes of the clean paths of a list of pairs. *)
Definition sum_sizes (fs : filesystem) (pairs : list (string * string)) : Z :=
  foldr (λ p s, size_at fs p.2 + s) 0 pairs.


(** The path of a line that reports a file [scanHashes] could not open or
    read. *)
Definition skipped_path (l : logline) : option string :=
  match l with
  | LogOpenSkipping p _ | LogHashSkipping p _ => Some p
  | _ => None
  end.

(** A path filed under a size that is a key of both size maps. *)
Definition collides (KS CS : gmap Z (list string)) (p : string) : Prop :=
  ∃ sz kn cn, KS !! sz = Some kn ∧ CS !! sz = Some cn ∧ (p ∈ kn ∨ p ∈ cn).

(** A line that is not about a file [scanHashes] could not read, or is
    about one of the paths [paths]. *)
Definition within (paths : string → Prop) (l : logline) : Prop :=
  ∀ p, skipped_path l = Some p → paths p.

(** A computation that only adds lines of [Q] to the log. *)
Definition appends {A} (Q : logline → Prop) (m : M A) : Prop :=
  ∀ w, ∃ x, logged (m w).1 = logged w ++ x ∧ Forall Q x.

(** The lines the body of the outer loop of [main] logs in a dry run for
    one entry of the keep size map. *)
Definition size_lines Sum256 {R : MapRange} (fs : filesystem)
    (CS : gmap Z (list string)) (e : Z * list string) : list logline :=
  match CS !! e.1 with
  | Some cn =>
      omap (skip_line fs) e.2 ++ omap (skip_line fs) cn
      ++ map found_line (size_dups Sum256 fs CS e)
  | None => []
  end.

(** A keep file and a clean file of the same size, the second of which
    cannot be opened, and a clean file of another size that cannot be
    opened either. *)
Definition unreadable_fs : filesystem :=
  list_to_map
    [("k", dir_node ["A.txt"]);
     ("k/A.txt", file_node "0123456789");
     ("c", dir_node ["B.txt"; "C.txt"]);
     ("c/B.txt",
      {| i_info := {| Mode := 420%N; Size := 10 |};
         i_names := inl "not a directory";
         i_data := OpenFails "permission denied";
         i_unlink := None |});
     ("c/C.txt",
      {| i_info := {| Mode := 420%N; Size := 7 |};
         i_names := inl "not a directory";
         i_data := OpenFails "permission denied";
         i_unlink := None |})].

(** ** Facts about the library models *)

Lemma string_length_app (s1 s2 : string) :
  String.length (s1 +:+ s2) = (String.length s1 + String.length s2)%nat.
Proof. induction s1 as [|c s1 IH]; simpl; [done | by rewrite IH]. Qed.

Lemma Join_length path name :
  String.length (Join path name)
  = (String.length path + 1 + String.length name)%nat.
Proof. unfold Join. rewrite !string_length_app. simpl. lia. Qed.

Lemma maxlen_ge (fs : filesystem) path nd :
  fs !! path = Some nd → (String.length path ≤ maxlen fs)%nat.
Proof.
  intros H. apply elem_of_map_to_list in H. unfold maxlen.
  induction (map_to_list fs) as [|kv l IH]; [by apply elem_of_nil in H|].
  apply elem_of_cons in H as [<-|H]; simpl; [lia | specialize (IH H); lia].
Qed.

Lemma Lstat_inr (fs : filesystem) path info :
  Lstat fs path = inr info ↔ ∃ nd, fs !! path = Some nd ∧ i_info nd = info.
Proof.
  unfold Lstat. destruct (fs !! path) as [nd|]; split.
  - intros [= <-]. eauto.
  - intros (nd' & [= <-] & <-). done.
  - done.
  - intros (nd' & [=] & _).
Qed.

Lemma Lstat_inl (fs : filesystem) path e :
  Lstat fs path = inl e → fs !! path = None.
Proof. unfold Lstat. by destruct (fs !! path). Qed.

Lemma IsDir_not_regular info : IsDir info = true → IsRegular info = false.
Proof.
  unfold IsDir, IsRegular. intros H.
  apply negb_true_iff, N.eqb_neq in H. apply N.eqb_neq. intros H0. apply H.
  unfold ModeType in H0. rewrite N.land_lor_distr_r in H0.
  by apply N.lor_eq_0_iff in H0 as [H0 _].
Qed.

(** With fuel beyond the longest path of the store, [walk] returns. *)
Lemma walk_total {St : Type} (fs : filesystem) (fn : WalkFunc St) fuel :
  ∀ path info s,
    is_Some (fs !! path) →
    (maxlen fs < fuel + String.length path)%nat →
    is_Some (walk fuel fs path info fn s).
Proof.
  induction fuel as [|fuel IH]; intros path info s [nd Hnd] Hlen.
  - apply maxlen_ge in Hnd. lia.
  - simpl. destruct (negb (IsDir info)); [done|].
    destruct (fn path (Some info) _ s) as [s1 err1].
    destruct (_ || _); [done|].
    generalize s1. clear s s1 err1.
    induction (match readDirNames fs path with inl _ => [] | inr ns => ns end)
      as [|name rest IHr]; intros s; simpl; [done|].
    destruct (Lstat fs (Join path name)) as [e|fileInfo] eqn:HL.
    + destruct (fn _ None _ s) as [s' err]. destruct (_ && _); [done | apply IHr].
    + apply Lstat_inr in HL as (nd' & Hnd' & _).
      destruct (IH (Join path name) fileInfo s) as [[s' err] Hw].
      * eauto.
      * rewrite Join_length. lia.
      * rewrite Hw. destruct (_ && _); [done | apply IHr].
Qed.

Lemma Walk_total {St : Type} (fs : filesystem) root (fn : WalkFunc St) s :
  is_Some (Walk fs root fn s).
Proof.
  unfold Walk. destruct (Lstat fs root) as [e|info] eqn:HL.
  - destruct (fn root None (Some e) s) as [s' err]. by destruct (_ || _).
  - apply Lstat_inr in HL as (nd & Hnd & _).
    destruct (walk_total fs fn (S (maxlen fs)) root info s) as [[s' err] Hw];
      [eauto | lia |].
    rewrite Hw. by destruct (_ || _).
Qed.

(** ** The size scanner *)

Section ScanFacts.

Variable fs : filesystem.
Variable sfx : list string.

Lemma bucket_insert (names : gmap Z (list string)) sz p sz' :
  bucket (<[sz := bucket names sz ++ [p]]> names) sz'
  = if decide (sz = sz') then bucket names sz ++ [p] else bucket names sz'.
Proof.
  unfold bucket at 1. destruct (decide (sz = sz')) as [->|Hne].
  - by rewrite lookup_insert_eq.
  - by rewrite lookup_insert_ne.
Qed.

Lemma scanSizes_fn_err path info e names lg :
  scanSizes_fn sfx path info (Some e) (names, lg)
  = ((names, lg ++ [LogWalkSkipping e]), Some SkipDir).
Proof. reflexivity. Qed.

Lemma scanSizes_fn_visit path info names lg :
  scanSizes_fn sfx path (Some info) None (names, lg)
  = ((if IsRegular info && accepts sfx path
      then <[int (Size info) := bucket names (int (Size info)) ++ [path]]> names
      else names, lg), None).
Proof.
  unfold scanSizes_fn, IsRegular, accepts, bucket.
  destruct (N.land _ _ =? 0)%N; simpl; [|done].
  destruct (0 <? length sfx)%nat; simpl; [|done].
  by destruct (keep_suffix sfx path).
Qed.

Lemma reaches_inv path p :
  reaches fs path p →
  p = path ∨
  ∃ nd names name,
    fs !! path = Some nd ∧ IsDir (i_info nd) = true ∧
    i_names nd = inr names ∧ name ∈ names ∧ reaches fs (Join path name) p.
Proof. destruct 1; [by left | right; eauto 10]. Qed.

Lemma found_missing path p sz : fs !! path = None → ¬ found fs sfx path p sz.
Proof.
  intros Hno (Hr & nd & Hnd & _).
  apply reaches_inv in Hr as [->|(nd' & ? & ? & Hnd' & _)]; congruence.
Qed.

Lemma found_file path nd p sz :
  fs !! path = Some nd → IsDir (i_info nd) = false →
  found fs sfx path p sz ↔
  p = path ∧ IsRegular (i_info nd) = true ∧ accepts sfx path = true
  ∧ int (Size (i_info nd)) = sz.
Proof.
  intros Hnd Hdir. split.
  - intros (Hr & nd' & Hnd' & Hreg & Hacc & Hsz).
    apply reaches_inv in Hr as [->|(nd'' & ? & ? & Hnd'' & Hd & _)].
    + by simplify_eq.
    + simplify_eq. congruence.
  - intros (-> & Hreg & Hacc & Hsz). split; [constructor | eauto].
Qed.

Lemma found_unreadable path nd errno p sz :
  fs !! path = Some nd → IsDir (i_info nd) = true → i_names nd = inl errno →
  ¬ found fs sfx path p sz.
Proof.
  intros Hnd Hdir Hnames (Hr & nd' & Hnd' & Hreg & _).
  apply reaches_inv in Hr as [->|(nd'' & ? & ? & Hnd'' & _ & Hn & _)].
  - simplify_eq. apply IsDir_not_regular in Hdir. congruence.
  - simplify_eq. congruence.
Qed.

Lemma found_dir path nd names p sz :
  fs !! path = Some nd → IsDir (i_info nd) = true → i_names nd = inr names →
  found fs sfx path p sz ↔
  ∃ name, name ∈ names ∧ found fs sfx (Join path name) p sz.
Proof.
  intros Hnd Hdir Hnames. split.
  - intros (Hr & nd' & Hnd' & Hreg & Hrest).
    apply reaches_inv in Hr as [->|(nd'' & ns & name & Hnd'' & _ & Hn & Hin & Hr)].
    + simplify_eq. apply IsDir_not_regular in Hdir. congruence.
    + simplify_eq. rewrite Hnames in Hn. simplify_eq.
      exists name. split; [done|]. split; eauto.
  - intros (name & Hin & Hr & Hrest). split; [|done].
    by eapply reaches_below.
Qed.

Lemma scan_adds_nothing names lg :
  scan_adds (λ _ _, False) names lg names lg.
Proof.
  split; [exists []; by rewrite app_nil_r | intros; tauto].
Qed.

Lemma scan_adds_skip names lg e :
  scan_adds (λ _ _, False) names lg names (lg ++ [LogWalkSkipping e]).
Proof.
  split; [eexists; split; [done|] | intros; tauto].
  by repeat constructor.
Qed.

Lemma scan_adds_trans from1 from2 names lg names1 lg1 names2 lg2 :
  scan_adds from1 names lg names1 lg1 →
  scan_adds from2 names1 lg1 names2 lg2 →
  scan_adds (λ p sz, from1 p sz ∨ from2 p sz) names lg names2 lg2.
Proof.
  intros [(x1 & -> & Hx1) H1] [(x2 & -> & Hx2) H2]. split.
  - exists (x1 ++ x2). rewrite app_assoc. split; [done|].
    by apply Forall_app.
  - intros p sz. rewrite H2, H1. tauto.
Qed.

Lemma scan_adds_iff from1 from2 names lg names' lg' :
  (∀ p sz, from1 p sz ↔ from2 p sz) →
  scan_adds from1 names lg names' lg' → scan_adds from2 names lg names' lg'.
Proof.
  intros Hiff [Hlg H]. split; [done|].
  intros p sz. rewrite H, Hiff. tauto.
Qed.

Lemma scan_adds_visit path nd names lg :
  fs !! path = Some nd → IsDir (i_info nd) = false →
  scan_adds (found fs sfx path) names lg
    (if IsRegular (i_info nd) && accepts sfx path
     then <[int (Size (i_info nd))
            := bucket names (int (Size (i_info nd))) ++ [path]]> names
     else names) lg.
Proof.
  intros Hnd Hdir. split; [exists []; by rewrite app_nil_r|].
  intros p sz. rewrite (found_file _ _ _ _ Hnd Hdir).
  destruct (IsRegular (i_info nd)); simpl; [|intuition congruence].
  destruct (accepts sfx path); [|intuition congruence].
  rewrite bucket_insert.
  destruct (decide (int (Size (i_info nd)) = sz)) as [->|Hne].
  - rewrite elem_of_app, list_elem_of_singleton. intuition congruence.
  - intuition congruence.
Qed.

Lemma walk_S {St : Type} fuel path info (fn : WalkFunc St) s :
  walk (S fuel) fs path info fn s
  = if negb (IsDir info) then Some (fn path (Some info) None s)
    else
      let r := readDirNames fs path in
      let err := match r with inl e => Some e | inr _ => None end in
      let names := match r with inl _ => [] | inr ns => ns end in
      let '(s1, err1) := fn path (Some info) err s in
      if not_nil err || not_nil err1 then Some (s1, err1)
      else walk_names (λ filename fileInfo s, walk fuel fs filename fileInfo fn s)
                      fs path fn names s1.
Proof. reflexivity. Qed.

Lemma walk_names_cons {St : Type} rec path (fn : WalkFunc St) name rest s :
  walk_names rec fs path fn (name :: rest) s
  = match Lstat fs (Join path name) with
    | inl e =>
        let '(s', err) := fn (Join path name) None (Some e) s in
        if not_nil err && negb (is_err err SkipDir) then Some (s', err)
        else walk_names rec fs path fn rest s'
    | inr fileInfo =>
        match rec (Join path name) fileInfo s with
        | None => None
        | Some (s', err) =>
            if not_nil err
               && (negb (IsDir fileInfo) || negb (is_err err SkipDir))
            then Some (s', err)
            else walk_names rec fs path fn rest s'
        end
    end.
Proof. reflexivity. Qed.

(** The loop over the names of a directory never stops early under the
    closure of [scanSizes], and files what the entries hold. *)
Lemma walk_names_scan
    (rec : string → FileInfo → gmap Z (list string) * list logline
           → option ((gmap Z (list string) * list logline) * option error))
    path :
  (∀ filename fileInfo names lg names' lg' e,
      Lstat fs filename = inr fileInfo →
      rec filename fileInfo (names, lg) = Some ((names', lg'), e) →
      (e = None ∨ e = Some SkipDir ∧ IsDir fileInfo = true) ∧
      scan_adds (found fs sfx filename) names lg names' lg') →
  ∀ rest names lg names' lg' e,
    walk_names rec fs path (scanSizes_fn sfx) rest (names, lg)
    = Some ((names', lg'), e) →
    e = None ∧
    scan_adds (λ p sz, ∃ name, name ∈ rest ∧ found fs sfx (Join path name) p sz)
              names lg names' lg'.
Proof.
  intros Hrec rest.
  induction rest as [|name rest IH]; intros names lg names' lg' e Hw.
  - simpl in Hw. simplify_eq. split; [done|].
    eapply scan_adds_iff; [|apply scan_adds_nothing].
    intros p sz. split; [done|]. intros (? & Hin & _). by apply elem_of_nil in Hin.
  - rewrite walk_names_cons in Hw.
    destruct (Lstat fs (Join path name)) as [e0|fileInfo] eqn:HL.
    + rewrite scanSizes_fn_err in Hw. cbn -[walk_names] in Hw.
      apply IH in Hw as [-> Hadd]. split; [done|].
      eapply scan_adds_iff;
        [|exact (scan_adds_trans _ _ _ _ _ _ _ _ (scan_adds_skip names lg e0) Hadd)].
      intros p sz. simpl. split.
      * intros [[]|(n & Hin & Hf)]. exists n. split; [by right | done].
      * intros (n & Hin & Hf). apply elem_of_cons in Hin as [->|Hin].
        -- exfalso. eapply found_missing; [|exact Hf]. by eapply Lstat_inl.
        -- right. eauto.
    + destruct (rec (Join path name) fileInfo (names, lg))
        as [[[names1 lg1] e1]|] eqn:Hr; [|done].
      destruct (Hrec _ _ _ _ _ _ _ HL Hr) as [He1 Hadd1].
      assert (not_nil e1 && (negb (IsDir fileInfo) || negb (is_err e1 SkipDir))
              = false) as Hgo.
      { by destruct He1 as [->|[-> ->]]. }
      rewrite Hgo in Hw. apply IH in Hw as [-> Hadd]. split; [done|].
      eapply scan_adds_iff; [|exact (scan_adds_trans _ _ _ _ _ _ _ _ Hadd1 Hadd)].
      intros p sz. simpl. split.
      * intros [Hf|(n & Hin & Hf)].
        -- exists name. split; [by left | done].
        -- exists n. split; [by right | done].
      * intros (n & Hin & Hf). apply elem_of_cons in Hin as [->|Hin]; eauto.
Qed.

(** [walk] under the closure of [scanSizes]: it returns nil, or
    [SkipDir] for a directory it could not read, and files exactly the
    regular files found below [path]. *)
Lemma walk_scan fuel :
  ∀ path info names lg names' lg' e,
    Lstat fs path = inr info →
    walk fuel fs path info (scanSizes_fn sfx) (names, lg)
    = Some ((names', lg'), e) →
    (e = None ∨ e = Some SkipDir ∧ IsDir info = true) ∧
    scan_adds (found fs sfx path) names lg names' lg'.
Proof.
  induction fuel as [|fuel IH]; intros path info names lg names' lg' e HL Hw;
    [done|].
  rewrite walk_S in Hw. apply Lstat_inr in HL as (nd & Hnd & <-).
  destruct (IsDir (i_info nd)) eqn:Hdir; cbn [negb] in Hw.
  - unfold readDirNames in Hw. rewrite Hnd in Hw.
    destruct (i_names nd) as [errno|ns] eqn:Hns;
      cbn -[scanSizes_fn walk_names walk] in Hw.
    + rewrite scanSizes_fn_err in Hw. simpl in Hw. simplify_eq.
      split; [by right|].
      eapply scan_adds_iff; [|apply scan_adds_skip].
      intros p sz. split; [done|]. by eapply found_unreadable.
    + rewrite scanSizes_fn_visit in Hw.
      rewrite (IsDir_not_regular _ Hdir) in Hw.
      cbn -[scanSizes_fn walk_names walk] in Hw.
      apply (walk_names_scan _ _ IH) in Hw as [-> Hadd].
      split; [by left|].
      eapply scan_adds_iff; [|exact Hadd].
      intros p sz. by rewrite (found_dir _ _ _ _ _ Hnd Hdir Hns).
  - rewrite scanSizes_fn_visit in Hw. simplify_eq. split; [by left|].
    by apply scan_adds_visit.
Qed.

End ScanFacts.

Lemma bucket_empty sz : bucket ∅ sz = [].
Proof. unfold bucket. by rewrite lookup_empty. Qed.

(** [scanSizes] returns, with a nil error, the map that files exactly the
    accepted regular files reached from the root; the file system is as
    before and the log has only grown by lines about skipped paths. *)
Lemma scanSizes_spec (fs : filesystem) sfx root lg :
  ∃ extra,
    scanSizes root sfx (World fs lg)
    = (World fs (lg ++ extra), Ok (sizes fs root sfx, None))
    ∧ Forall (λ l, is_skip l = true) extra
    ∧ ∀ p sz, p ∈ bucket (sizes fs root sfx) sz ↔ found fs sfx root p sz.
Proof.
  unfold sizes, scanSizes, Walk. cbn [disk logged].
  destruct (Lstat fs root) as [e|info] eqn:HL.
  - rewrite scanSizes_fn_err. simpl.
    exists [LogWalkSkipping e]. split; [done|]. split; [by repeat constructor|].
    intros p sz. rewrite bucket_empty. split; [by intros ?%elem_of_nil|].
    intros Hf. exfalso. eapply found_missing; [|exact Hf]. by eapply Lstat_inl.
  - destruct (walk_total fs (scanSizes_fn sfx) (S (maxlen fs)) root info (∅, []))
      as [[[names lg'] e] Hw].
    { apply Lstat_inr in HL as (nd & -> & _). eauto. }
    { lia. }
    rewrite Hw.
    destruct (walk_scan fs sfx _ _ _ _ _ _ _ _ HL Hw)
      as [He [(extra & -> & Hextra) Hnames]].
    exists extra.
    assert (e = None ∨ e = Some SkipDir) as [-> | ->] by tauto; simpl;
      (split; [done|]; split; [done|]);
      intros p sz; rewrite Hnames, bucket_empty; (split; [|by right]);
      by intros [?%elem_of_nil|].
Qed.

(** A root that is not there: one line is logged, and the scan returns
    the empty map and a nil error. *)
Lemma scanSizes_missing (fs : filesystem) sfx root lg :
  fs !! root = None →
  scanSizes root sfx (World fs lg)
  = (World fs (lg ++ [LogWalkSkipping (PathError "lstat" root ENOENT)]),
     Ok (∅, None)).
Proof. intros H. unfold scanSizes, Walk, Lstat. simpl. by rewrite H. Qed.

(** A root that is not a directory is visited as the only entry. *)
Lemma scanSizes_not_dir (fs : filesystem) sfx root nd lg :
  fs !! root = Some nd → IsDir (i_info nd) = false →
  scanSizes root sfx (World fs lg)
  = (World fs lg,
     Ok (if IsRegular (i_info nd) && accepts sfx root
         then {[int (Size (i_info nd)) := [root]]} else ∅, None)).
Proof.
  intros H Hdir. unfold scanSizes, Walk, Lstat. cbn [disk logged].
  rewrite H, walk_S, Hdir.
  cbn [negb]. rewrite scanSizes_fn_visit. cbn -[bucket]. rewrite app_nil_r.
  destruct (IsRegular (i_info nd) && accepts sfx root); [|done].
  by rewrite bucket_empty, insert_empty.
Qed.

(** Every path filed under a size is in the store with that size. *)
Lemma sizes_sized (fs : filesystem) root sfx sz p :
  p ∈ bucket (sizes fs root sfx) sz →
  ∃ nd, fs !! p = Some nd ∧ int (Size (i_info nd)) = sz.
Proof.
  destruct (scanSizes_spec fs sfx root []) as (_ & _ & _ & H).
  intros (_ & nd & Hnd & _ & _ & Hsz)%H. eauto.
Qed.

(** ** The hash disambiguator *)

Section HashFacts.

Variable Sum256 : list Byte.byte → list Byte.byte.

Lemma scanHashes_body_spec fs lg path files :
  ∃ extra,
    scanHashes_body Sum256 path files (World fs lg)
    = (World fs (lg ++ extra), Ok (hash_step Sum256 fs files path))
    ∧ Forall (λ l, is_skip l = true) extra.
Proof.
  unfold scanHashes_body, hash_step, digest_of, bind, osOpen. simpl.
  destruct (Open fs path) as [e|[e|data]]; simpl.
  - exists [LogOpenSkipping path e]. split; [done | by repeat constructor].
  - exists [LogHashSkipping path e]. split; [done | by repeat constructor].
  - exists []. by rewrite app_nil_r.
Qed.

Lemma forM_scanHashes fs paths :
  ∀ lg files,
  ∃ extra,
    forM paths files (scanHashes_body Sum256) (World fs lg)
    = (World fs (lg ++ extra), Ok (foldl (hash_step Sum256 fs) files paths))
    ∧ Forall (λ l, is_skip l = true) extra.
Proof.
  induction paths as [|path paths IH]; intros lg files.
  - exists []. by rewrite app_nil_r.
  - destruct (scanHashes_body_spec fs lg path files) as (x1 & H1 & Hx1).
    destruct (IH (lg ++ x1) (hash_step Sum256 fs files path)) as (x2 & H2 & Hx2).
    exists (x1 ++ x2). split; [|by apply Forall_app].
    cbn [forM foldl]. unfold bind at 1. by rewrite H1, H2, app_assoc.
Qed.

(** [scanHashes] always returns a map and a nil error; the file system
    is as before. *)
Lemma scanHashes_spec fs lg paths :
  ∃ extra,
    scanHashes Sum256 paths (World fs lg)
    = (World fs (lg ++ extra), Ok (hashes Sum256 fs paths, None))
    ∧ Forall (λ l, is_skip l = true) extra.
Proof.
  destruct (forM_scanHashes fs paths lg ∅) as (extra & H & Hx).
  exists extra. split; [|done]. unfold scanHashes, bind. by rewrite H.
Qed.

(** Under each digest the map holds the last path of the sequence that
    has it. *)
Lemma hashes_lookup fs paths d :
  hashes Sum256 fs paths !! d
  = last (filter (λ p, digest_of Sum256 fs p = Some d) paths).
Proof.
  unfold hashes. induction paths as [|p paths IH] using rev_ind.
  - apply lookup_empty.
  - rewrite foldl_app, filter_app. cbn [foldl]. unfold hash_step at 1.
    rewrite filter_cons, filter_nil.
    destruct (digest_of Sum256 fs p) as [d'|] eqn:Hp.
    + destruct (decide (d' = d)) as [->|Hne].
      * rewrite lookup_insert_eq. rewrite decide_True by done.
        by rewrite last_snoc.
      * rewrite lookup_insert_ne by done.
        rewrite decide_False by congruence. by rewrite app_nil_r.
    + rewrite decide_False by congruence. by rewrite app_nil_r.
Qed.

Lemma hashes_lookup_Some fs paths d p :
  hashes Sum256 fs paths !! d = Some p → p ∈ paths ∧ digest_of Sum256 fs p = Some d.
Proof.
  rewrite hashes_lookup. intros H.
  assert (p ∈ filter (λ p, digest_of Sum256 fs p = Some d) paths) as Hin.
  { destruct (filter _ paths) as [|x l] using rev_ind; [done|].
    rewrite last_snoc in H. simplify_eq. apply elem_of_app. right. by left. }
  by apply list_elem_of_filter in Hin as [? ?].
Qed.

(** The map depends on the file system only through the paths read. *)
Lemma hashes_ext fs1 fs2 paths :
  (∀ p, p ∈ paths → fs1 !! p = fs2 !! p) →
  hashes Sum256 fs1 paths = hashes Sum256 fs2 paths.
Proof.
  unfold hashes. generalize (∅ : gmap string string).
  induction paths as [|p paths IH]; intros files H; [done|].
  cbn [foldl]. rewrite IH by (intros; apply H; by right).
  f_equal. unfold hash_step, digest_of, Open. rewrite (H p) by by left. done.
Qed.

End HashFacts.

(** ** The matching loop of [main] *)

Lemma reported_app l1 l2 : reported (l1 ++ l2) = reported l1 ++ reported l2.
Proof. apply omap_app. Qed.

Lemma deleting_app l1 l2 : deleting (l1 ++ l2) = deleting l1 ++ deleting l2.
Proof. apply omap_app. Qed.

Lemma skip_lines_quiet extra :
  Forall (λ l, is_skip l = true) extra → reported extra = [] ∧ deleting extra = [].
Proof.
  induction 1 as [|l extra Hl _ [IH1 IH2]]; [done|].
  destruct l; try discriminate Hl; by split.
Qed.

Lemma reported_found ps : reported (map found_line ps) = ps.
Proof.
  induction ps as [|[k c] ps IH]; [done|].
  change (reported (map found_line ((k, c) :: ps)))
    with ((k, c) :: reported (map found_line ps)).
  by rewrite IH.
Qed.

Lemma deleting_found ps : deleting (map found_line ps) = [].
Proof. by induction ps as [|[k c] ps IH]. Qed.

Lemma reported_deleting ps : reported (map deleting_line ps) = [].
Proof. by induction ps as [|[k c] ps IH]. Qed.

Lemma deleting_deleting ps : deleting (map deleting_line ps) = ps.
Proof.
  induction ps as [|[k c] ps IH]; [done|].
  change (deleting (map deleting_line ((k, c) :: ps)))
    with ((k, c) :: deleting (map deleting_line ps)).
  by rewrite IH.
Qed.

Lemma Remove_ok (fs fs' : filesystem) path :
  Remove fs path = (fs', None) → fs' = delete path fs.
Proof.
  unfold Remove. destruct (fs !! path) as [nd|]; [|done].
  destruct (i_unlink nd); [done|]. by intros [= <-].
Qed.

Lemma Remove_failed (fs fs' : filesystem) path e :
  Remove fs path = (fs', Some e) → fs' = fs.
Proof.
  unfold Remove. destruct (fs !! path) as [nd|]; [|by intros [= <-]].
  destruct (i_unlink nd); [by intros [= <-] | done].
Qed.

Lemma unlink_all_app fs ps1 ps2 :
  unlink_all fs (ps1 ++ ps2) = unlink_all (unlink_all fs ps1) ps2.
Proof. apply foldl_app. Qed.

Lemma unlink_all_lookup (fs : filesystem) ps p :
  unlink_all fs ps !! p = if decide (p ∈ ps.*2) then None else fs !! p.
Proof.
  revert fs. induction ps as [|[k c] ps IH]; intros fs.
  - destruct (decide (p ∈ [].*2)) as [Hin|_]; [by apply elem_of_nil in Hin | done].
  - change (unlink_all fs ((k, c) :: ps)) with (unlink_all (delete c fs) ps).
    rewrite IH. rewrite fmap_cons. cbn [snd].
    destruct (decide (p ∈ ps.*2)) as [Hin|Hnin].
    + rewrite decide_True; [done | by right].
    + destruct (decide (p = c)) as [->|Hne].
      * rewrite decide_True by by left. apply lookup_delete_eq.
      * rewrite decide_False by (intros [?|?]%elem_of_cons; done).
        by apply lookup_delete_ne.
Qed.

Section DupLoop.

Variables (size : Z) (cleaners : gmap string string).

Lemma main_dup_body_dry entry acc fs lg :
  main_dup_body true size cleaners entry acc (World fs lg)
  = match dup_of cleaners entry with
    | Some p => (World fs (lg ++ [found_line p]),
                 Ok (int (acc.1 + 1), int (acc.2 + size)))
    | None => (World fs lg, Ok acc)
    end.
Proof.
  destruct entry as [key keeppath], acc as [fc bc].
  unfold main_dup_body, dup_of. simpl. by destruct (cleaners !! key).
Qed.

Lemma main_dup_body_live entry acc fs lg :
  main_dup_body false size cleaners entry acc (World fs lg)
  = match dup_of cleaners entry with
    | Some p =>
        match Remove fs p.2 with
        | (fs', None) =>
            (World fs' (lg ++ [deleting_line p]),
             Ok (int (acc.1 + 1), int (acc.2 + size)))
        | (fs', Some e) =>
            (World fs' ((lg ++ [deleting_line p]) ++ [LogRemoveError p.2 e]),
             Exit FatalRemove)
        end
    | None => (World fs lg, Ok acc)
    end.
Proof.
  destruct entry as [key keeppath], acc as [fc bc].
  unfold main_dup_body, dup_of. simpl.
  destruct (cleaners !! key) as [c|]; [|done].
  unfold bind, logPrintf, osRemove, logFatalf, bind, logPrintf, osExit. simpl.
  by destruct (Remove fs c) as [fs' [e|]].
Qed.

(** A dry run reports every pair of the size and touches nothing. *)
Lemma forM_dups_dry l :
  ∀ fs lg acc,
    forM l acc (main_dup_body true size cleaners) (World fs lg)
    = (World fs (lg ++ map found_line (omap (dup_of cleaners) l)),
       Ok (tally size acc (omap (dup_of cleaners) l))).
Proof.
  induction l as [|entry l IH]; intros fs lg acc.
  - simpl. by rewrite app_nil_r.
  - cbn [forM]. unfold bind at 1. rewrite main_dup_body_dry.
    cbn [omap list_omap]. destruct (dup_of cleaners entry) as [p|].
    + rewrite IH. cbn [map]. by rewrite <-app_assoc.
    + apply IH.
Qed.

(** A live run unlinks the clean path of every pair, or stops at the
    first path it cannot unlink. *)
Lemma forM_dups_live l :
  ∀ fs lg acc,
    match forM l acc (main_dup_body false size cleaners) (World fs lg) with
    | (w', Ok acc') =>
        w' = World (unlink_all fs (omap (dup_of cleaners) l))
                   (lg ++ map deleting_line (omap (dup_of cleaners) l))
        ∧ acc' = tally size acc (omap (dup_of cleaners) l)
    | (w', Exit site) =>
        site = FatalRemove
        ∧ ∃ done, done `prefix_of` omap (dup_of cleaners) l
                  ∧ disk w' = unlink_all fs done
    | (_, Stuck) => False
    end.
Proof.
  induction l as [|entry l IH]; intros fs lg acc.
  - simpl. by rewrite app_nil_r.
  - cbn [forM]. unfold bind at 1. rewrite main_dup_body_live.
    cbn [omap list_omap]. destruct (dup_of cleaners entry) as [p|]; [|apply IH].
    destruct (Remove fs p.2) as [fs' [e|]] eqn:HR.
    + apply Remove_failed in HR as ->. split; [done|].
      exists []. split; [apply prefix_nil | done].
    + apply Remove_ok in HR as ->.
      specialize (IH (delete p.2 fs) (lg ++ [deleting_line p])
                     (int (acc.1 + 1), int (acc.2 + size))).
      destruct (forM l _ _ _) as [w' [acc'|site|]]; [| |done].
      * destruct IH as [-> ->]. cbn [map]. by rewrite <-app_assoc.
      * destruct IH as [-> (done & Hpre & ->)]. split; [done|].
        exists (p :: done). split; [by apply prefix_cons | done].
Qed.

End DupLoop.

Section SizeLoop.

Variable Sum256 : list Byte.byte → list Byte.byte.
Context {R : MapRange}.

Lemma tally_all_cons fs cleanerSizes acc e l :
  tally_all Sum256 fs cleanerSizes acc (e :: l)
  = tally_all Sum256 fs cleanerSizes (tally e.1 acc (size_dups Sum256 fs cleanerSizes e)) l.
Proof. reflexivity. Qed.

Lemma size_dups_Some fs cleanerSizes size keeperNames cleanerNames :
  cleanerSizes !! size = Some cleanerNames →
  size_dups Sum256 fs cleanerSizes (size, keeperNames)
  = omap (dup_of (hashes Sum256 fs cleanerNames))
         (range (hashes Sum256 fs keeperNames)).
Proof. intros H. unfold size_dups. simpl. by rewrite H. Qed.

Lemma size_dups_None fs cleanerSizes size keeperNames :
  cleanerSizes !! size = None →
  size_dups Sum256 fs cleanerSizes (size, keeperNames) = [].
Proof. intros H. unfold size_dups. simpl. by rewrite H. Qed.

Lemma range_elem_of {K V} `{Countable K} (m : gmap K V) k v :
  (k, v) ∈ range m ↔ m !! k = Some v.
Proof. by rewrite range_perm, elem_of_map_to_list. Qed.

Lemma range_NoDup_fst {K V} `{Countable K} (m : gmap K V) :
  NoDup (range m).*1.
Proof. rewrite range_perm. apply NoDup_fst_map_to_list. Qed.

Lemma main_size_body_eq dry cleanerSizes size keeperNames acc fs lg :
  ∃ extra,
    Forall (λ l, is_skip l = true) extra
    ∧ main_size_body Sum256 dry cleanerSizes (size, keeperNames) acc (World fs lg)
      = match cleanerSizes !! size with
        | Some cleanerNames =>
            forM (range (hashes Sum256 fs keeperNames)) acc
                 (main_dup_body dry size (hashes Sum256 fs cleanerNames))
                 (World fs (lg ++ extra))
        | None => (World fs (lg ++ extra), Ok acc)
        end.
Proof.
  unfold main_size_body. destruct (cleanerSizes !! size) as [cleanerNames|].
  - destruct (scanHashes_spec Sum256 fs lg keeperNames) as (x1 & H1 & Hx1).
    destruct (scanHashes_spec Sum256 fs (lg ++ x1) cleanerNames)
      as (x2 & H2 & Hx2).
    exists (x1 ++ x2). split; [by apply Forall_app|].
    unfold bind at 1. rewrite H1. cbn [not_nil].
    unfold bind at 1. rewrite H2. cbn [not_nil]. by rewrite app_assoc.
  - exists []. split; [done|]. by rewrite app_nil_r.
Qed.

(** The outer loop of a dry run: every pair is reported, nothing is
    unlinked. *)
Lemma forM_sizes_dry cleanerSizes fs l :
  ∀ lg acc,
  ∃ extra,
    forM l acc (main_size_body Sum256 true cleanerSizes) (World fs lg)
    = (World fs (lg ++ extra), Ok (tally_all Sum256 fs cleanerSizes acc l))
    ∧ reported extra = l ≫= size_dups Sum256 fs cleanerSizes
    ∧ deleting extra = [].
Proof.
  induction l as [|[size keeperNames] l IH]; intros lg acc.
  - exists []. by rewrite app_nil_r.
  - destruct (main_size_body_eq true cleanerSizes size keeperNames acc fs lg)
      as (x1 & [Hr1 Hd1]%skip_lines_quiet & Hbody).
    cbn [forM]. unfold bind at 1. rewrite Hbody.
    rewrite tally_all_cons, bind_cons. cbn [fst].
    destruct (cleanerSizes !! size) as [cleanerNames|] eqn:HC.
    + rewrite (size_dups_Some _ _ _ _ _ HC), forM_dups_dry.
      match goal with |- context [forM l ?a _ (World fs ?g)] =>
        destruct (IH g a) as (x2 & -> & Hr2 & Hd2) end.
      eexists. split; [by rewrite <-!app_assoc|].
      rewrite !reported_app, !deleting_app, Hr1, Hd1, Hr2, Hd2.
      by rewrite reported_found, deleting_found.
    + rewrite (size_dups_None _ _ _ _ HC).
      destruct (IH (lg ++ x1) acc) as (x2 & -> & Hr2 & Hd2).
      eexists. split; [by rewrite <-!app_assoc|].
      by rewrite !reported_app, !deleting_app, Hr1, Hd1, Hr2, Hd2.
Qed.

Lemma dups_clean_side fs cleanerNames (l : list (string * string)) p :
  p ∈ (omap (dup_of (hashes Sum256 fs cleanerNames)) l).*2 → p ∈ cleanerNames.
Proof.
  intros ([k c] & -> & Hin)%list_elem_of_fmap.
  apply list_elem_of_omap in Hin as ([key kp] & _ & Hdup).
  unfold dup_of in Hdup. simpl in Hdup.
  destruct (hashes Sum256 fs cleanerNames !! key) as [c'|] eqn:Hc; [|done].
  simplify_eq. by apply hashes_lookup_Some in Hc as [Hc _].
Qed.

(** The outer loop of a live run, started on a store that agrees with
    [fs0] on the paths of the sizes still to come. *)
Lemma forM_sizes_live (fs0 : filesystem) keeperSizes cleanerSizes :
  (∀ sz p, p ∈ bucket keeperSizes sz →
           ∃ nd, fs0 !! p = Some nd ∧ int (Size (i_info nd)) = sz) →
  (∀ sz p, p ∈ bucket cleanerSizes sz →
           ∃ nd, fs0 !! p = Some nd ∧ int (Size (i_info nd)) = sz) →
  ∀ l,
    NoDup l.*1 →
    (∀ e, e ∈ l → keeperSizes !! e.1 = Some e.2) →
    ∀ (fs : filesystem) lg acc,
      (∀ e p, e ∈ l → p ∈ e.2 ∨ p ∈ bucket cleanerSizes e.1 →
              fs !! p = fs0 !! p) →
      match forM l acc (main_size_body Sum256 false cleanerSizes) (World fs lg)
      with
      | (w', Ok acc') =>
          ∃ extra,
            w' = World (unlink_all fs (l ≫= size_dups Sum256 fs0 cleanerSizes))
                       (lg ++ extra)
            ∧ deleting extra = l ≫= size_dups Sum256 fs0 cleanerSizes
            ∧ reported extra = []
            ∧ acc' = tally_all Sum256 fs0 cleanerSizes acc l
      | (w', Exit site) =>
          site = FatalRemove
          ∧ ∃ done, done `prefix_of` (l ≫= size_dups Sum256 fs0 cleanerSizes)
                    ∧ disk w' = unlink_all fs done
      | (_, Stuck) => False
      end.
Proof.
  intros HKS HCS l.
  induction l as [|[size keeperNames] l IH]; intros Hnd Hl fs lg acc Hagree.
  - exists []. by rewrite app_nil_r.
  - apply NoDup_cons in Hnd as [Hsize Hnd].
    destruct (main_size_body_eq false cleanerSizes size keeperNames acc fs lg)
      as (x1 & [Hr1 Hd1]%skip_lines_quiet & Hbody).
    cbn [forM]. unfold bind at 1. rewrite Hbody.
    rewrite tally_all_cons, bind_cons. cbn [fst].
    assert (∀ fs1 : filesystem,
               (∀ p, p ∉ bucket cleanerSizes size → fs1 !! p = fs !! p) →
               ∀ e p, e ∈ l → p ∈ e.2 ∨ p ∈ bucket cleanerSizes e.1 →
                      fs1 !! p = fs0 !! p) as Hnext.
    { intros fs1 Hfs1 [sz' kn'] p Hin Hp.
      rewrite <-(Hagree (sz', kn') p (list_elem_of_further _ _ _ Hin) Hp).
      apply Hfs1. intros Hne.
      apply HCS in Hne as (nd & Hnd1 & Hsz1).
      assert (∃ nd', fs0 !! p = Some nd' ∧ int (Size (i_info nd')) = sz')
        as (nd' & Hnd2 & Hsz2).
      { destruct Hp as [Hp|Hp]; [|by apply HCS].
        apply HKS. unfold bucket.
        pose proof (Hl (sz', kn') (list_elem_of_further _ _ _ Hin)) as Hk.
        simpl in Hk. by rewrite Hk. }
      simplify_eq. apply Hsize. apply list_elem_of_fmap.
      by exists (int (Size (i_info nd)), kn'). }
    destruct (cleanerSizes !! size) as [cleanerNames|] eqn:HCsize.
    + rewrite (size_dups_Some _ _ _ _ _ HCsize).
      assert (hashes Sum256 fs keeperNames = hashes Sum256 fs0 keeperNames)
        as ->.
      { apply hashes_ext. intros p Hp.
        apply (Hagree (size, keeperNames)); [by left | by left]. }
      assert (hashes Sum256 fs cleanerNames = hashes Sum256 fs0 cleanerNames)
        as ->.
      { apply hashes_ext. intros p Hp.
        apply (Hagree (size, keeperNames)); [by left | right].
        unfold bucket. simpl. by rewrite HCsize. }
      set (ps := omap (dup_of (hashes Sum256 fs0 cleanerNames))
                      (range (hashes Sum256 fs0 keeperNames))).
      assert (∀ e p, e ∈ l → p ∈ e.2 ∨ p ∈ bucket cleanerSizes e.1 →
                     unlink_all fs ps !! p = fs0 !! p) as Hagree'.
      { apply Hnext. intros p Hnin. rewrite unlink_all_lookup.
        rewrite decide_False; [done|]. intros Hin. apply Hnin.
        apply dups_clean_side in Hin. unfold bucket. by rewrite HCsize. }
      pose proof (forM_dups_live size (hashes Sum256 fs0 cleanerNames)
                    (range (hashes Sum256 fs0 keeperNames)) fs (lg ++ x1) acc)
        as Hinner.
      fold ps in Hinner.
      match type of Hinner with
      | context [forM ?a ?b ?c ?d] =>
          destruct (forM a b c d) as [w1 [acc1|site|]]
      end; [| |exact Hinner].
      * destruct Hinner as [-> ->].
        specialize (IH Hnd (λ e He, Hl e (list_elem_of_further _ _ _ He))
                       (unlink_all fs ps)
                       ((lg ++ x1) ++ map deleting_line ps)
                       (tally size acc ps) Hagree').
        match type of IH with
        | context [forM ?a ?b ?c ?d] =>
            destruct (forM a b c d) as [w2 [acc2|site|]]
        end; [| |exact IH].
        -- destruct IH as (x2 & -> & Hd2 & Hr2 & ->).
           eexists. split; [by rewrite unlink_all_app, <-!app_assoc|].
           rewrite !reported_app, !deleting_app, Hr1, Hd1, Hr2, Hd2.
           by rewrite reported_deleting, deleting_deleting.
        -- destruct IH as [-> (done & Hpre & ->)].
           split; [done|]. exists (ps ++ done).
           split; [by apply prefix_app | by rewrite unlink_all_app].
      * destruct Hinner as [-> (done & Hpre & ->)]. split; [done|].
        exists done. split; [by apply prefix_app_r | done].
    + rewrite (size_dups_None _ _ _ _ HCsize).
      specialize (IH Hnd (λ e He, Hl e (list_elem_of_further _ _ _ He))
                     fs (lg ++ x1) acc (Hnext fs (λ p _, eq_refl))).
      match type of IH with
      | context [forM ?a ?b ?c ?d] =>
          destruct (forM a b c d) as [w2 [acc2|site|]]
      end; [| exact IH | exact IH].
      destruct IH as (x2 & -> & Hd2 & Hr2 & ->).
      eexists. split; [by rewrite <-!app_assoc|].
      by rewrite !reported_app, !deleting_app, Hr1, Hd1, Hr2, Hd2.
Qed.

End SizeLoop.

(** ** [main] as a whole *)

Section MainFacts.

Variable Sum256 : list Byte.byte → list Byte.byte.
Context {R : MapRange}.

Lemma main_usage f w :
  keep f = "" ∨ clean f = "" →
  main Sum256 f w
  = (World (disk w) (logged w ++ [LogRequired]), Exit ExitUsage).
Proof.
  intros H. unfold main.
  assert (bool_decide (keep f = "") || bool_decide (clean f = "") = true) as ->.
  { destruct H as [H|H]; rewrite (bool_decide_eq_true_2 _ H);
      [done | apply orb_true_r]. }
  done.
Qed.

(** With both roots given, [main] scans the two trees, goes through the
    sizes of the keep side and logs the summary. *)
Lemma main_shape f (fs : filesystem) :
  keep f ≠ "" → clean f ≠ "" →
  ∃ lg1,
    reported lg1 = [] ∧ deleting lg1 = []
    ∧ main Sum256 f (World fs [])
      = match forM (range (sizes fs (keep f) (suffixes_of f))) (0, 0)
                   (main_size_body Sum256 (dry f)
                      (sizes fs (clean f) (suffixes_of f)))
                   (World fs lg1)
        with
        | (w', Ok acc) =>
            (World (disk w') (logged w' ++ [LogSummary acc.1 acc.2]), Ok tt)
        | (w', Exit site) => (w', Exit site)
        | (w', Stuck) => (w', Stuck)
        end.
Proof.
  intros Hk Hc. unfold main.
  rewrite (bool_decide_eq_false_2 _ Hk), (bool_decide_eq_false_2 _ Hc).
  cbn [orb]. fold (suffixes_of f).
  set (lg0 := if dry f then [LogDryRun] else []).
  destruct (scanSizes_spec fs (suffixes_of f) (keep f)
              (lg0 ++ [LogScanning (keep f)]))
    as (x1 & H1 & [Hr1 Hd1]%skip_lines_quiet & _).
  set (KS := sizes fs (keep f) (suffixes_of f)) in *.
  destruct (scanSizes_spec fs (suffixes_of f) (clean f)
              ((((lg0 ++ [LogScanning (keep f)]) ++ x1)
                ++ [LogKeepSizes (Z.of_nat (size KS))])
               ++ [LogScanning (clean f)]))
    as (x2 & H2 & [Hr2 Hd2]%skip_lines_quiet & _).
  set (CS := sizes fs (clean f) (suffixes_of f)) in *.
  exists ((((((lg0 ++ [LogScanning (keep f)]) ++ x1)
              ++ [LogKeepSizes (Z.of_nat (size KS))])
             ++ [LogScanning (clean f)]) ++ x2)
           ++ [LogCleanSizes (Z.of_nat (size CS))]).
  split; [|split]; cycle 2.
  - unfold bind at 1.
    assert ((if dry f then logPrintf LogDryRun else ret tt) (World fs [])
            = (World fs lg0, Ok tt)) as -> by (unfold lg0; by destruct (dry f)).
    unfold bind at 1, logPrintf at 1. cbn [disk logged].
    unfold bind at 1. rewrite H1. cbn [not_nil].
    unfold bind at 1, logPrintf at 1. cbn [disk logged].
    unfold bind at 1, logPrintf at 1. cbn [disk logged].
    unfold bind at 1. rewrite H2. cbn [not_nil].
    unfold bind at 1, logPrintf at 1. cbn [disk logged].
    unfold bind at 1.
    match goal with |- context [forM ?a ?b ?c ?d] =>
      destruct (forM a b c d) as [w' [[fc bc]|site|]] end; reflexivity.
  - rewrite !reported_app, Hr1, Hr2. unfold lg0. by destruct (dry f).
  - rewrite !deleting_app, Hd1, Hd2. unfold lg0. by destruct (dry f).
Qed.

(** What a run does to the store, and how it ends: a dry run leaves the
    store alone and returns; a live run unlinks the clean paths of the
    first pairs of [all_dups] and either returns, having gone through all
    of them, or stops at a path it could not unlink. *)
Lemma main_run f (fs : filesystem) :
  keep f ≠ "" → clean f ≠ "" →
  let KS := sizes fs (keep f) (suffixes_of f) in
  let CS := sizes fs (clean f) (suffixes_of f) in
  let pairs := all_dups Sum256 fs KS CS in
  match main Sum256 f (World fs []) with
  | (w', Ok _) =>
      if dry f
      then disk w' = fs ∧ reported (logged w') = pairs
           ∧ deleting (logged w') = []
      else disk w' = unlink_all fs pairs ∧ deleting (logged w') = pairs
           ∧ reported (logged w') = []
  | (w', Exit site) =>
      dry f = false ∧ site = FatalRemove
      ∧ ∃ done, done `prefix_of` pairs ∧ disk w' = unlink_all fs done
  | (_, Stuck) => False
  end.
Proof.
  intros Hk Hc KS CS pairs.
  destruct (main_shape f fs Hk Hc) as (lg1 & Hr1 & Hd1 & ->).
  fold KS CS. destruct (dry f).
  - destruct (forM_sizes_dry Sum256 CS fs (range KS) lg1 (0, 0))
      as (extra & -> & Hr & Hd).
    cbn [disk logged]. rewrite !reported_app, !deleting_app, Hr1, Hd1, Hr, Hd.
    by rewrite !app_nil_r.
  - pose proof (forM_sizes_live Sum256 fs KS CS
                  (λ sz p, sizes_sized fs _ _ sz p)
                  (λ sz p, sizes_sized fs _ _ sz p)
                  (range KS) (range_NoDup_fst KS)
                  (λ e He, proj1 (range_elem_of KS e.1 e.2)
                                 (eq_ind _ (λ x, x ∈ range KS) He _
                                         (surjective_pairing e)))
                  fs lg1 (0, 0) (λ _ _ _ _, eq_refl)) as Hlive.
    match type of Hlive with
    | context [forM ?a ?b ?c ?d] =>
        destruct (forM a b c d) as [w' [acc|site|]]
    end; [| |exact Hlive].
    + destruct Hlive as (extra & -> & Hd & Hr & _). cbn [disk logged].
      rewrite !reported_app, !deleting_app, Hr1, Hd1, Hr, Hd.
      by rewrite !app_nil_r.
    + destruct Hlive as [-> (done & Hpre & ->)]. eauto.
Qed.

(** Every pair of a run joins a keep-side path and a clean-side path
    filed under the same size and read with the same digest. *)
Lemma all_dups_elem (fs : filesystem) keeperSizes cleanerSizes k c :
  (k, c) ∈ all_dups Sum256 fs keeperSizes cleanerSizes →
  ∃ sz d,
    k ∈ bucket keeperSizes sz ∧ c ∈ bucket cleanerSizes sz
    ∧ digest_of Sum256 fs k = Some d ∧ digest_of Sum256 fs c = Some d.
Proof.
  unfold all_dups. intros ([sz kn] & Hin & He)%list_elem_of_bind.
  apply range_elem_of in He. unfold size_dups in Hin. simpl in Hin.
  destruct (cleanerSizes !! sz) as [cn|] eqn:HC; [|by apply elem_of_nil in Hin].
  apply list_elem_of_omap in Hin as ([d k'] & Hd & Hdup).
  apply range_elem_of in Hd. unfold dup_of in Hdup. simpl in Hdup.
  destruct (hashes Sum256 fs cn !! d) as [c'|] eqn:Hc'; [|done].
  simplify_eq.
  apply hashes_lookup_Some in Hd as [Hk Hdk].
  apply hashes_lookup_Some in Hc' as [Hc Hdc].
  exists sz, d. unfold bucket. by rewrite He, HC.
Qed.

End MainFacts.

(** The pairs of a run do not depend on the order of [range], up to
    their own order. *)
Lemma bind_Permutation_ext {A B} (f g : A → list B) (l1 l2 : list A) :
  (∀ x, f x ≡ₚ g x) → l1 ≡ₚ l2 → l1 ≫= f ≡ₚ l2 ≫= g.
Proof.
  intros Hfg Hl. rewrite Hl. clear l1 Hl.
  induction l2 as [|x l IH]; [done|].
  rewrite !bind_cons. by rewrite IH, Hfg.
Qed.

Lemma all_dups_Permutation Sum256 (R1 R2 : MapRange) (fs : filesystem) KS CS :
  all_dups (R:=R1) Sum256 fs KS CS ≡ₚ all_dups (R:=R2) Sum256 fs KS CS.
Proof.
  unfold all_dups. apply bind_Permutation_ext.
  - intros [sz kn]. unfold size_dups. simpl. destruct (CS !! sz); [|done].
    apply omap_Permutation. by rewrite !range_perm.
  - by rewrite !range_perm.
Qed.

(** ** Properties of the hash disambiguator *)

Lemma digest_of_None Sum256 (fs : filesystem) path :
  digest_of Sum256 fs path = None ↔ unreadable fs path.
Proof.
  unfold digest_of, unreadable. destruct (Open fs path) as [e|[e|data]].
  - split; [eauto | done].
  - split; [eauto | done].
  - split; [done | by intros [[? ?]|[? ?]]].
Qed.

Lemma hashes_drop_unreadable Sum256 (fs : filesystem) l1 p l2 :
  digest_of Sum256 fs p = None →
  hashes Sum256 fs (l1 ++ p :: l2) = hashes Sum256 fs (l1 ++ l2).
Proof.
  intros Hp. unfold hashes. rewrite !foldl_app. cbn [foldl].
  unfold hash_step at 2. by rewrite Hp.
Qed.

(** C5: for every sequence of paths, [scanHashes] returns the map that
    holds, under each digest, the last path of the sequence that produced
    it; so of two paths with the same digest the later one is retained, and
    every digest has one path. *)
Theorem scanHashes_last_wins Sum256 (fs : filesystem) lg paths :
  ∃ extra,
    scanHashes Sum256 paths (World fs lg)
    = (World fs (lg ++ extra), Ok (hashes Sum256 fs paths, None))
    ∧ (∀ d, hashes Sum256 fs paths !! d
            = last (filter (λ p, digest_of Sum256 fs p = Some d) paths))
    ∧ (∀ l1 p l2 q l3 d,
          paths = l1 ++ p :: l2 ++ q :: l3 →
          digest_of Sum256 fs p = Some d →
          digest_of Sum256 fs q = Some d →
          (∀ r, r ∈ l3 → digest_of Sum256 fs r ≠ Some d) →
          hashes Sum256 fs paths !! d = Some q).
Proof.
  destruct (scanHashes_spec Sum256 fs lg paths) as (extra & H & _).
  exists extra. split; [done|]. split; [apply hashes_lookup|].
  intros l1 p l2 q l3 d -> Hp Hq Hl3. rewrite hashes_lookup.
  change (l1 ++ p :: l2 ++ q :: l3) with (l1 ++ (p :: l2) ++ q :: l3).
  rewrite (app_assoc l1 (p :: l2) (q :: l3)), filter_app, filter_cons.
  rewrite decide_True by done.
  assert (filter (λ p, digest_of Sum256 fs p = Some d) l3 = []) as ->.
  { clear -Hl3. induction l3 as [|r l3 IH]; [done|]. rewrite filter_cons.
    rewrite decide_False by (apply Hl3; by left).
    apply IH. intros r' Hr'. apply Hl3. by right. }
  apply last_snoc.
Qed.

(** C6: [scanHashes] returns a map and a nil error for every list of
    paths and leaves the file system alone; a file that cannot be opened
    or read has no entry and the map is the one of the list without it,
    while every file that can be read has its digest in the map. *)
Theorem scanHashes_best_effort Sum256 (fs : filesystem) lg paths :
  ∃ extra,
    scanHashes Sum256 paths (World fs lg)
    = (World fs (lg ++ extra), Ok (hashes Sum256 fs paths, None))
    ∧ (∀ p d, unreadable fs p → hashes Sum256 fs paths !! d ≠ Some p)
    ∧ (∀ l1 p l2, paths = l1 ++ p :: l2 → unreadable fs p →
                  hashes Sum256 fs paths = hashes Sum256 fs (l1 ++ l2))
    ∧ (∀ p d, p ∈ paths → digest_of Sum256 fs p = Some d →
              is_Some (hashes Sum256 fs paths !! d)).
Proof.
  destruct (scanHashes_spec Sum256 fs lg paths) as (extra & H & _).
  exists extra. split; [done|]. split; [|split].
  - intros p d Hp%(digest_of_None Sum256) [_ Hd]%hashes_lookup_Some. congruence.
  - intros l1 p l2 -> Hp%(digest_of_None Sum256).
    by apply hashes_drop_unreadable.
  - intros p d Hin Hd. rewrite hashes_lookup.
    assert (p ∈ filter (λ p, digest_of Sum256 fs p = Some d) paths) as Hf
      by by apply list_elem_of_filter.
    destruct (filter _ paths) as [|x l] using rev_ind;
      [by apply elem_of_nil in Hf|].
    rewrite last_snoc. eauto.
Qed.

(** ** Properties of the size scanner *)

Lemma land_lor_0 m a b :
  N.land m (N.lor a b) = 0%N → N.land m a = 0%N ∧ N.land m b = 0%N.
Proof. rewrite N.land_lor_distr_r. apply N.lor_eq_0_iff. Qed.

Lemma regular_mode_bits info :
  IsRegular info = true →
  N.land (Mode info) ModeDir = 0%N ∧ N.land (Mode info) ModeSymlink = 0%N
  ∧ N.land (Mode info) ModeNamedPipe = 0%N ∧ N.land (Mode info) ModeSocket = 0%N
  ∧ N.land (Mode info) ModeDevice = 0%N
  ∧ N.land (Mode info) ModeCharDevice = 0%N
  ∧ N.land (Mode info) ModeIrregular = 0%N.
Proof.
  unfold IsRegular, ModeType. intros H%N.eqb_eq.
  apply land_lor_0 in H as [? H]. apply land_lor_0 in H as [? H].
  apply land_lor_0 in H as [? H]. apply land_lor_0 in H as [? H].
  apply land_lor_0 in H as [? H]. apply land_lor_0 in H as [? H].
  done.
Qed.

(** C7: whatever paths of a tree fail to be read (a directory that
    cannot be listed, an entry whose lstat fails), [scanSizes] does not
    abort: it returns a size map with a nil error, and every accepted
    regular file reached from the root through the directories that could
    be read is filed under its size; nothing else is. *)
Theorem scanSizes_soft_fail (fs : filesystem) root sfx lg :
  ∃ names extra,
    scanSizes root sfx (World fs lg) = (World fs (lg ++ extra), Ok (names, None))
    ∧ Forall (λ l, is_skip l = true) extra
    ∧ (∀ p sz, found fs sfx root p sz → p ∈ bucket names sz)
    ∧ (∀ p sz, p ∈ bucket names sz → found fs sfx root p sz).
Proof.
  destruct (scanSizes_spec fs sfx root lg) as (extra & H & Hx & Hnames).
  exists (sizes fs root sfx), extra.
  split; [done|]. split; [done|]. split; intros p sz; by rewrite Hnames.
Qed.

(** ** Properties of whole runs *)

Section RunFacts.

Variable Sum256 : list Byte.byte → list Byte.byte.
Context {R : MapRange}.

(** A run returns, or leaves at the usage check or at a failed unlink. *)
Lemma main_outcome f (fs : filesystem) :
  ∃ w', main Sum256 f (World fs []) = (w', Ok tt)
        ∨ main Sum256 f (World fs []) = (w', Exit ExitUsage)
        ∨ main Sum256 f (World fs []) = (w', Exit FatalRemove).
Proof.
  destruct (decide (keep f = "")) as [Hk|Hk];
    [rewrite main_usage by (by left); eauto|].
  destruct (decide (clean f = "")) as [Hc|Hc];
    [rewrite main_usage by (by right); eauto|].
  pose proof (main_run Sum256 f fs Hk Hc) as H. cbv zeta in H.
  destruct (main Sum256 f (World fs [])) as [w' [[]|site|]]; [eauto| |done].
  destruct H as (_ & -> & _). eauto.
Qed.

(** The clean path of every pair is a regular file of the store. *)
Lemma all_dups_regular (fs : filesystem) KS root sfx k c :
  (k, c) ∈ all_dups Sum256 fs KS (sizes fs root sfx) →
  ∃ nd, fs !! c = Some nd ∧ IsRegular (i_info nd) = true.
Proof.
  intros (sz & d & _ & Hc & _)%all_dups_elem.
  destruct (scanSizes_spec fs sfx root []) as (_ & _ & _ & H).
  apply H in Hc as (_ & nd & Hnd & Hreg & _). eauto.
Qed.

(** A run changes the store at a path only by unlinking a regular file. *)
Lemma main_keeps_non_regular f (fs : filesystem) p nd :
  fs !! p = Some nd → IsRegular (i_info nd) = false →
  disk (main Sum256 f (World fs [])).1 !! p = Some nd.
Proof.
  intros Hp Hreg.
  destruct (decide (keep f = "")) as [Hk|Hk];
    [by rewrite main_usage by (by left)|].
  destruct (decide (clean f = "")) as [Hc|Hc];
    [by rewrite main_usage by (by right)|].
  pose proof (main_run Sum256 f fs Hk Hc) as H. cbv zeta in H.
  assert (∀ done,
             done ⊆ all_dups Sum256 fs (sizes fs (keep f) (suffixes_of f))
                                       (sizes fs (clean f) (suffixes_of f)) →
             unlink_all fs done !! p = Some nd) as Hdone.
  { intros done Hsub. rewrite unlink_all_lookup.
    destruct (decide (p ∈ done.*2)) as [Hin|]; [|done].
    apply list_elem_of_fmap in Hin as ([k c] & -> & Hin).
    apply Hsub, all_dups_regular in Hin as (nd' & Hnd' & Hreg').
    simpl in *. congruence. }
  destruct (main Sum256 f (World fs [])) as [w' [[]|site|]]; [| |done].
  - cbn [fst]. destruct (dry f).
    + destruct H as (-> & _). done.
    + destruct H as (-> & _). by apply Hdone.
  - cbn [fst]. destruct H as (_ & _ & done & Hpre & ->).
    apply Hdone. intros x Hx. by eapply elem_of_prefix.
Qed.

(** The only change a run makes to the store is to unlink, in a live
    run, a path of the clean scan that has the size and the digest of a
    path of the keep scan. *)
Lemma main_only_unlinks_clean_dups f (fs : filesystem) p :
  disk (main Sum256 f (World fs [])).1 !! p = fs !! p
  ∨ (dry f = false
     ∧ disk (main Sum256 f (World fs [])).1 !! p = None
     ∧ ∃ k sz d,
         k ∈ bucket (sizes fs (keep f) (suffixes_of f)) sz
         ∧ p ∈ bucket (sizes fs (clean f) (suffixes_of f)) sz
         ∧ digest_of Sum256 fs k = Some d ∧ digest_of Sum256 fs p = Some d).
Proof.
  destruct (decide (keep f = "")) as [Hk|Hk];
    [left; by rewrite main_usage by (by left)|].
  destruct (decide (clean f = "")) as [Hc|Hc];
    [left; by rewrite main_usage by (by right)|].
  pose proof (main_run Sum256 f fs Hk Hc) as H. cbv zeta in H.
  set (pairs := all_dups Sum256 fs (sizes fs (keep f) (suffixes_of f))
                                   (sizes fs (clean f) (suffixes_of f))) in *.
  assert (∀ done,
             dry f = false → done ⊆ pairs →
             unlink_all fs done !! p = fs !! p
             ∨ (dry f = false
                ∧ unlink_all fs done !! p = None
                ∧ ∃ k sz d,
                    k ∈ bucket (sizes fs (keep f) (suffixes_of f)) sz
                    ∧ p ∈ bucket (sizes fs (clean f) (suffixes_of f)) sz
                    ∧ digest_of Sum256 fs k = Some d
                    ∧ digest_of Sum256 fs p = Some d)) as Hdone.
  { intros done Hlive Hsub. rewrite unlink_all_lookup.
    destruct (decide (p ∈ done.*2)) as [Hin|]; [|by left].
    right. split; [done|]. split; [done|].
    apply list_elem_of_fmap in Hin as ([k c] & -> & Hin).
    apply Hsub, all_dups_elem in Hin as (sz & d & ? & ? & ? & ?).
    by exists k, sz, d. }
  destruct (main Sum256 f (World fs [])) as [w' [[]|site|]]; [| |done].
  - cbn [fst]. destruct (dry f) eqn:Hdry.
    + destruct H as (-> & _). by left.
    + destruct H as (-> & _). by apply Hdone.
  - cbn [fst]. destruct H as (Hdry & _ & done & Hpre & ->).
    apply Hdone; [done|]. intros x Hx. by eapply elem_of_prefix.
Qed.

(** So a path of the keep scan that the clean scan does not reach is
    left as it was. *)
Lemma main_keeps_disjoint_keep_path f (fs : filesystem) p :
  (∀ sz, p ∉ bucket (sizes fs (clean f) (suffixes_of f)) sz) →
  disk (main Sum256 f (World fs [])).1 !! p = fs !! p.
Proof.
  intros Hp.
  destruct (main_only_unlinks_clean_dups f fs p)
    as [H|(_ & _ & k & sz & d & _ & Hin & _)]; [done|].
  by apply Hp in Hin.
Qed.

End RunFacts.

(** C9: whatever the extension filter, every path [scanSizes] files under
    a size is in the store as a regular file: its mode has none of the
    directory, symlink, named pipe, socket, device, character device and
    irregular bits.  A run of [main] in turn leaves every entry that is not
    a regular file in the store as it was. *)
Theorem only_regular_files_filed Sum256 (R : MapRange) (fs : filesystem) :
  (∀ root sfx lg,
      ∃ names extra,
        scanSizes root sfx (World fs lg)
        = (World fs (lg ++ extra), Ok (names, None))
        ∧ ∀ sz p, p ∈ bucket names sz →
            ∃ nd, fs !! p = Some nd
                  ∧ N.land (Mode (i_info nd)) ModeType = 0%N
                  ∧ N.land (Mode (i_info nd)) ModeDir = 0%N
                  ∧ N.land (Mode (i_info nd)) ModeSymlink = 0%N
                  ∧ N.land (Mode (i_info nd)) ModeNamedPipe = 0%N
                  ∧ N.land (Mode (i_info nd)) ModeSocket = 0%N
                  ∧ N.land (Mode (i_info nd)) ModeDevice = 0%N
                  ∧ N.land (Mode (i_info nd)) ModeCharDevice = 0%N)
  ∧ (∀ f p nd,
        fs !! p = Some nd →
        N.land (Mode (i_info nd)) ModeType ≠ 0%N →
        disk (main Sum256 f (World fs [])).1 !! p = Some nd).
Proof.
  split.
  - intros root sfx lg.
    destruct (scanSizes_spec fs sfx root lg) as (extra & H & _ & Hnames).
    exists (sizes fs root sfx), extra. split; [done|].
    intros sz p (_ & nd & Hnd & Hreg & _)%Hnames. exists nd. split; [done|].
    split; [by apply N.eqb_eq|].
    apply regular_mode_bits in Hreg. tauto.
  - intros f p nd Hnd Hmode. apply main_keeps_non_regular; [done|].
    by apply N.eqb_neq.
Qed.

(** C10: [scanHashes] returns a nil error for every list of paths, so
    neither the loop body of [main] nor [main] itself ever leaves through
    the two [os.Exit(1)] that follow the calls of [scanHashes]. *)
Theorem scanHashes_exits_unreachable Sum256 (R : MapRange) :
  (∀ paths w, ∃ files w', scanHashes Sum256 paths w = (w', Ok (files, None)))
  ∧ (∀ dry cleanerSizes entry acc w,
        (main_size_body Sum256 dry cleanerSizes entry acc w).2 ≠ Exit ExitHashKeep
        ∧ (main_size_body Sum256 dry cleanerSizes entry acc w).2
          ≠ Exit ExitHashClean)
  ∧ (∀ f (fs : filesystem),
        (main Sum256 f (World fs [])).2 ≠ Exit ExitHashKeep
        ∧ (main Sum256 f (World fs [])).2 ≠ Exit ExitHashClean).
Proof.
  split; [|split].
  - intros paths [fs lg].
    destruct (scanHashes_spec Sum256 fs lg paths) as (extra & H & _). eauto.
  - intros dry CS [size kn] acc [fs lg].
    destruct (main_size_body_eq Sum256 dry CS size kn acc fs lg)
      as (extra & _ & ->).
    destruct (CS !! size) as [cn|]; [|done].
    destruct dry.
    + by rewrite forM_dups_dry.
    + pose proof (forM_dups_live size (hashes Sum256 fs cn)
                    (range (hashes Sum256 fs kn)) fs (lg ++ extra) acc) as H.
      match type of H with
      | context [forM ?a ?b ?c ?d] =>
          destruct (forM a b c d) as [w' [acc'|site|]]
      end; [done| |done].
      by destruct H as [-> _].
  - intros f fs.
    destruct (main_outcome Sum256 f fs) as (w' & [->| [->| ->]]); done.
Qed.

(** C2, amended: a root that is missing or is not a directory does not
    abort the scan.  [scanSizes] returns a nil error for every root; for
    a root that is not there it logs the lstat error and returns the empty
    map; a root that is not a directory is visited as the only entry, and
    filed if it is a regular file the filter accepts.  So [main] never
    leaves through the two [os.Exit(1)] that follow the scans. *)
Theorem scanSizes_absorbs_root_errors Sum256 (R : MapRange)
    (fs : filesystem) root sfx lg :
  (∃ extra,
      scanSizes root sfx (World fs lg)
      = (World fs (lg ++ extra), Ok (sizes fs root sfx, None)))
  ∧ (fs !! root = None →
     scanSizes root sfx (World fs lg)
     = (World fs (lg ++ [LogWalkSkipping (PathError "lstat" root ENOENT)]),
        Ok (∅, None)))
  ∧ (∀ nd, fs !! root = Some nd → IsDir (i_info nd) = false →
           scanSizes root sfx (World fs lg)
           = (World fs lg,
              Ok (if IsRegular (i_info nd) && accepts sfx root
                  then {[int (Size (i_info nd)) := [root]]} else ∅, None)))
  ∧ (∀ f, (main Sum256 f (World fs [])).2 ≠ Exit ExitScanKeep
          ∧ (main Sum256 f (World fs [])).2 ≠ Exit ExitScanClean).
Proof.
  split; [|split; [|split]].
  - destruct (scanSizes_spec fs sfx root lg) as (extra & H & _). eauto.
  - apply scanSizes_missing.
  - intros nd. apply scanSizes_not_dir.
  - intros f. destruct (main_outcome Sum256 f fs) as (w' & [->| [->| ->]]); done.
Qed.

(** C4, amended: a dry run performs no mutation of the file system; and
    whenever the live run with the same flags runs to its end (no unlink
    fails), the pairs the dry run reports are, up to the order of [range],
    the pairs the live run deletes, and the live run changes the store by
    unlinking the clean paths of these pairs and nothing else. *)
Theorem dry_run_matches_completed_live_run Sum256 (R1 R2 : MapRange)
    (fs : filesystem) (keep_root clean_root exts : string) :
  disk (main (R:=R1) Sum256 (Flags keep_root clean_root true exts)
             (World fs [])).1 = fs
  ∧ ∀ w_live,
      main (R:=R2) Sum256 (Flags keep_root clean_root false exts) (World fs [])
      = (w_live, Ok tt) →
      ∃ lg_dry,
        main (R:=R1) Sum256 (Flags keep_root clean_root true exts) (World fs [])
        = (World fs lg_dry, Ok tt)
        ∧ reported lg_dry ≡ₚ deleting (logged w_live)
        ∧ deleting lg_dry = []
        ∧ disk w_live = unlink_all fs (deleting (logged w_live))
        ∧ ∀ p, disk w_live !! p
               = if decide (p ∈ (deleting (logged w_live)).*2) then None
                 else fs !! p.
Proof.
  set (fd := Flags keep_root clean_root true exts).
  set (fl := Flags keep_root clean_root false exts).
  destruct (decide (keep_root = "")) as [Hk|Hk].
  { rewrite !main_usage by (by left). split; [done | by intros ? [=]]. }
  destruct (decide (clean_root = "")) as [Hc|Hc].
  { rewrite !main_usage by (by right). split; [done | by intros ? [=]]. }
  pose proof (main_run (R:=R1) Sum256 fd fs Hk Hc) as Hdry.
  pose proof (main_run (R:=R2) Sum256 fl fs Hk Hc) as Hlive.
  cbv zeta in Hdry, Hlive. cbn [dry keep clean] in Hdry, Hlive.
  change (suffixes_of fl) with (suffixes_of fd) in Hlive.
  destruct (main (R:=R1) Sum256 fd (World fs [])) as [[fs_d lg_d] [[]|site|]];
    [|by destruct Hdry|done].
  destruct Hdry as (Hfs & Hrep & Hdel). cbn [disk logged fst] in *. subst fs_d.
  split; [done|]. intros w_live Hw. rewrite Hw in Hlive.
  destruct Hlive as (Hfs' & Hdel' & _).
  exists lg_d. split; [done|]. split; [|split; [done|split]].
  - rewrite Hrep, Hdel'. apply all_dups_Permutation.
  - by rewrite Hdel'.
  - intros p. rewrite Hfs', Hdel'. apply unlink_all_lookup.
Qed.

(** ** Runs on the concrete file systems *)

Lemma range_empty {R : MapRange} {K V} `{Countable K} :
  range (∅ : gmap K V) = [].
Proof. apply Permutation_nil_r. by rewrite range_perm, map_to_list_empty. Qed.

Lemma range_singleton {R : MapRange} {K V} `{Countable K} (k : K) (v : V) :
  range ({[k := v]} : gmap K V) = [(k, v)].
Proof.
  apply Permutation_singleton_r. by rewrite range_perm, map_to_list_singleton.
Qed.

Lemma bind_Ok {A B} (c : M A) (k : A → M B) w w' a :
  c w = (w', Ok a) → bind c k w = k a w'.
Proof. intros H. unfold bind. by rewrite H. Qed.

Lemma logPrintf_Ok l (fs : filesystem) lg :
  logPrintf l (World fs lg) = (World fs (lg ++ [l]), Ok tt).
Proof. reflexivity. Qed.

Lemma digest_of_readable Sum256 (fs : filesystem) path data :
  Open fs path = inr (inr data) →
  digest_of Sum256 fs path = Some (Hex.EncodeToString (Sum256 data)).
Proof. intros H. unfold digest_of. by rewrite H. Qed.

(** When every file of the list can be read, [scanHashes] logs nothing. *)
Lemma scanHashes_readable Sum256 (fs : filesystem) lg paths :
  Forall (λ p, is_Some (digest_of Sum256 fs p)) paths →
  scanHashes Sum256 paths (World fs lg)
  = (World fs lg, Ok (hashes Sum256 fs paths, None)).
Proof.
  intros Hall.
  assert (∀ files,
            forM paths files (scanHashes_body Sum256) (World fs lg)
            = (World fs lg, Ok (foldl (hash_step Sum256 fs) files paths))) as H.
  { induction Hall as [|p paths [d Hd] _ IH]; intros files; [done|].
    cbn [forM foldl].
    rewrite (bind_Ok _ _ _ (World fs lg) (hash_step Sum256 fs files p));
      [apply IH|].
    unfold hash_step. rewrite Hd.
    unfold digest_of in Hd. unfold scanHashes_body, bind, osOpen.
    cbn [disk logged].
    destruct (Open fs p) as [e|[e|data]]; [done | done |]. by simplify_eq. }
  unfold scanHashes, hashes, bind. by rewrite H.
Qed.

(** Runs the first computation of a sequence, with [tac] for the calls
    that are not a plain log line. *)
Ltac step_with tac :=
  etransitivity;
  [apply bind_Ok; first [tac | apply logPrintf_Ok | reflexivity]
  |cbv beta iota; cbn [not_nil]].



(** With a list of suffixes that is empty, every regular file reached
    from the root is filed. *)
Lemma scanSizes_no_suffixes (fs : filesystem) root lg p nd :
  reaches fs root p → fs !! p = Some nd → IsRegular (i_info nd) = true →
  ∃ names extra,
    scanSizes root [] (World fs lg) = (World fs (lg ++ extra), Ok (names, None))
    ∧ p ∈ bucket names (int (Size (i_info nd))).
Proof.
  intros Hr Hnd Hreg.
  destruct (scanSizes_spec fs [] root lg) as (extra & H & _ & Hnames).
  exists (sizes fs root []), extra. split; [done|].
  apply Hnames. split; [done|]. eauto.
Qed.

(** C1: with the [-extensions] flag absent or empty, [main] passes the
    one-element list [[""]] to [scanSizes], not the empty list; the
    filter then asks for a path ending in ".", and the regular file
    [k/A.txt] under the root [k] is left out of the size map. *)
Theorem empty_extensions_flag_leaves_files_out :
  suffixes_of (Flags "k" "c" false "") = [""]
  ∧ reaches scenario_fs "k" "k/A.txt"
  ∧ (∃ nd, scenario_fs !! "k/A.txt" = Some nd ∧ IsRegular (i_info nd) = true)
  ∧ scanSizes "k" (suffixes_of (Flags "k" "c" false "")) (World scenario_fs [])
    = (World scenario_fs [], Ok (∅, None)).
Proof.
  split; [reflexivity|]. split; [|split].
  - eapply (reaches_below _ "k" (dir_node ["A.txt"]) ["A.txt"] "A.txt");
      [reflexivity | reflexivity | reflexivity | by left | constructor].
  - exists (file_node "0123456789"). split; reflexivity.
  - vm_compute. reflexivity.
Qed.

(** C2, as stated, fails: the root [nope] is not in the store, yet the
    scan returns the empty map with a nil error and the run ends with
    status 0; the same holds for a root that is a regular file. *)
Lemma missing_root_is_not_fatal :
  scenario_fs !! "nope" = None
  ∧ scanSizes "nope" ["txt"] (World scenario_fs [])
    = (World scenario_fs
         [LogWalkSkipping (PathError "lstat" "nope" ENOENT)], Ok (∅, None))
  ∧ status (main plain_digest (Flags "nope" "c" false "txt")
                 (World scenario_fs [])).2 = Some 0
  ∧ (IsDir (i_info (file_node "0123456789")) = false
     ∧ scenario_fs !! "k/A.txt" = Some (file_node "0123456789")
     ∧ scanSizes "k/A.txt" ["txt"] (World scenario_fs [])
       = (World scenario_fs [], Ok ({[10 := ["k/A.txt"]]}, None))
     ∧ status (main plain_digest (Flags "k/A.txt" "c" false "txt")
                    (World scenario_fs [])).2 = Some 0).
Proof. vm_compute. repeat split; reflexivity. Qed.

(** C3: with the same directory as keep root and as clean root, the
    live run unlinks [d/a.txt], a file of the keep tree. *)
Theorem same_root_run_deletes_keep_file Sum256 (R : MapRange) :
  found single_fs ["txt"] "d" "d/a.txt" 3
  ∧ main Sum256 (Flags "d" "d" false "txt") (World single_fs [])
    = (World (delete "d/a.txt" single_fs)
         [LogScanning "d"; LogKeepSizes 1; LogScanning "d"; LogCleanSizes 1;
          LogDeleting "d/a.txt" "d/a.txt"; LogSummary 1 3], Ok tt).
Proof.
  split.
  { split.
    - eapply (reaches_below _ "d" (dir_node ["a.txt"]) ["a.txt"] "a.txt");
        [reflexivity | reflexivity | reflexivity | by left | constructor].
    - exists (file_node "abc"). repeat split; reflexivity. }
  assert (∀ lg, scanSizes "d" ["txt"] (World single_fs lg)
                = (World single_fs lg, Ok ({[3 := ["d/a.txt"]]}, None))) as Hscan.
  { intros lg. unfold scanSizes. cbn [disk logged].
    assert (Walk single_fs "d" (scanSizes_fn ["txt"]) (∅, [])
            = Some (({[3 := ["d/a.txt"]]}, []), None)) as ->
        by (vm_compute; reflexivity).
    by rewrite app_nil_r. }
  assert (∀ lg, scanHashes Sum256 ["d/a.txt"] (World single_fs lg)
                = (World single_fs lg,
                   Ok ({[Hex.EncodeToString
                           (Sum256 (String.list_byte_of_string "abc"))
                         := "d/a.txt"]}, None))) as Hhash.
  { intros lg. rewrite scanHashes_readable by (by repeat constructor).
    unfold hashes, hash_step. cbn [foldl].
    rewrite (digest_of_readable _ _ _ (String.list_byte_of_string "abc"))
      by reflexivity.
    by rewrite insert_empty. }
  assert (∀ lg, main_size_body Sum256 false {[3 := ["d/a.txt"]]}
                  (3, ["d/a.txt"]) (0, 0) (World single_fs lg)
                = (World (delete "d/a.txt" single_fs)
                         (lg ++ [LogDeleting "d/a.txt" "d/a.txt"]), Ok (1, 3)))
    as Hbody.
  { intros lg. unfold main_size_body. rewrite lookup_singleton_eq.
    do 2 step_with ltac:(apply Hhash).
    rewrite range_singleton. cbn [forM].
    step_with ltac:(rewrite main_dup_body_live; unfold dup_of; cbn [fst snd];
                    rewrite lookup_singleton_eq;
                    change (Remove single_fs "d/a.txt")
                      with (delete "d/a.txt" single_fs, @None error);
                    reflexivity).
    reflexivity. }
  unfold main. cbn [keep clean dry extensions].
  assert (Strings.Split (Strings.ToLower "txt") "," = ["txt"]) as ->
      by reflexivity.
  change (bool_decide ("d" = "") || bool_decide ("d" = "")) with false.
  cbv iota.
  do 7 step_with ltac:(apply Hscan). cbn [app].
  rewrite map_size_singleton, range_singleton. cbn [forM].
  step_with ltac:(etransitivity; [apply bind_Ok; apply Hbody | reflexivity]).
  reflexivity.
Qed.

(** C4, as stated, fails: when [c/B.txt] cannot be unlinked, the dry run
    reports the pair ([k/A.txt], [c/B.txt]) but the live run stops at the
    failed unlink and deletes nothing. *)
Lemma failed_unlink_live_deletes_less :
  reported (logged (main plain_digest (Flags "k" "c" true "txt")
                         (World locked_fs [])).1)
  = [("k/A.txt", "c/B.txt")]
  ∧ (main plain_digest (Flags "k" "c" false "txt") (World locked_fs [])).2
    = Exit FatalRemove
  ∧ disk (main plain_digest (Flags "k" "c" false "txt") (World locked_fs [])).1
    = locked_fs
  ∧ is_Some (locked_fs !! "c/B.txt").
Proof. vm_compute. repeat split; try reflexivity. eexists; reflexivity. Qed.

(** The live run on the scenario of the specification runs to its end,
    and the dry run reports the pair it deletes. *)
Lemma dry_run_matches_completed_live_run_witness :
  ∃ lg_dry,
    main plain_digest (Flags "k" "c" true "txt") (World scenario_fs [])
    = (World scenario_fs lg_dry, Ok tt)
    ∧ reported lg_dry ≡ₚ [("k/A.txt", "c/B.txt")]
    ∧ deleting lg_dry = [].
Proof.
  destruct (dry_run_matches_completed_live_run plain_digest range_canonical
              range_canonical scenario_fs "k" "c" "txt") as [_ H].
  destruct (H (main plain_digest (Flags "k" "c" false "txt")
                    (World scenario_fs [])).1)
    as (lg_dry & Hdry & Hperm & Hdel & _).
  - vm_compute. reflexivity.
  - exists lg_dry. split; [exact Hdry|]. split; [exact Hperm | exact Hdel].
Defined.

(** C8: on the scenario of the specification, run with the
    [-extensions] flag left out, [main] finds no file at all: nothing is
    deleted and the summary reports 0 duplicate files and 0 bytes. *)
Theorem scenario_default_flags_finds_nothing Sum256 (R : MapRange) :
  main Sum256 (Flags "k" "c" false "") (World scenario_fs [])
  = (World scenario_fs
       [LogScanning "k"; LogKeepSizes 0; LogScanning "c"; LogCleanSizes 0;
        LogSummary 0 0], Ok tt).
Proof.
  assert (∀ root lg, root = "k" ∨ root = "c" →
            scanSizes root [""] (World scenario_fs lg)
            = (World scenario_fs lg, Ok (∅, None))) as Hscan.
  { intros root lg Hroot. unfold scanSizes. cbn [disk logged].
    assert (Walk scenario_fs root (scanSizes_fn [""]) (∅, [])
            = Some ((∅, []), None)) as ->
        by (destruct Hroot as [-> | ->]; vm_compute; reflexivity).
    by rewrite app_nil_r. }
  unfold main. cbn [keep clean dry extensions].
  assert (Strings.Split (Strings.ToLower "") "," = [""]) as -> by reflexivity.
  change (bool_decide ("k" = "") || bool_decide ("c" = "")) with false.
  cbv iota.
  do 7 step_with ltac:(apply Hscan; tauto). cbn [app].
  rewrite range_empty. reflexivity.
Qed.

(** With [-extensions txt] the scenario goes as the specification says,
    for every digest that tells the bytes of [C.txt] from those of
    [A.txt]: [B.txt] is unlinked, [C.txt] stays, and the summary reports 1
    file and 10 bytes. *)
Lemma scenario_txt_filter_live Sum256 (R : MapRange) :
  Hex.EncodeToString (Sum256 (String.list_byte_of_string "abcdefghij"))
  ≠ Hex.EncodeToString (Sum256 (String.list_byte_of_string "0123456789")) →
  main Sum256 (Flags "k" "c" false "txt") (World scenario_fs [])
  = (World (delete "c/B.txt" scenario_fs)
       [LogScanning "k"; LogKeepSizes 1; LogScanning "c"; LogCleanSizes 1;
        LogDeleting "c/B.txt" "k/A.txt"; LogSummary 1 10], Ok tt).
Proof.
  intros Hdiff.
  set (H1 := Hex.EncodeToString (Sum256 (String.list_byte_of_string "0123456789"))) in *.
  set (H2 := Hex.EncodeToString (Sum256 (String.list_byte_of_string "abcdefghij"))) in *.
  assert (∀ lg, scanSizes "k" ["txt"] (World scenario_fs lg)
                = (World scenario_fs lg, Ok ({[10 := ["k/A.txt"]]}, None)))
    as Hkeep.
  { intros lg. unfold scanSizes. cbn [disk logged].
    assert (Walk scenario_fs "k" (scanSizes_fn ["txt"]) (∅, [])
            = Some (({[10 := ["k/A.txt"]]}, []), None)) as ->
        by (vm_compute; reflexivity).
    by rewrite app_nil_r. }
  assert (∀ lg, scanSizes "c" ["txt"] (World scenario_fs lg)
                = (World scenario_fs lg,
                   Ok ({[10 := ["c/B.txt"; "c/C.txt"]]}, None))) as Hclean.
  { intros lg. unfold scanSizes. cbn [disk logged].
    assert (Walk scenario_fs "c" (scanSizes_fn ["txt"]) (∅, [])
            = Some (({[10 := ["c/B.txt"; "c/C.txt"]]}, []), None)) as ->
        by (vm_compute; reflexivity).
    by rewrite app_nil_r. }
  assert (∀ lg, scanHashes Sum256 ["k/A.txt"] (World scenario_fs lg)
                = (World scenario_fs lg, Ok ({[H1 := "k/A.txt"]}, None)))
    as Hkh.
  { intros lg. rewrite scanHashes_readable by (by repeat constructor).
    unfold hashes, hash_step. cbn [foldl].
    rewrite (digest_of_readable _ _ _ (String.list_byte_of_string "0123456789"))
      by reflexivity.
    by rewrite insert_empty. }
  assert (∀ lg, scanHashes Sum256 ["c/B.txt"; "c/C.txt"] (World scenario_fs lg)
                = (World scenario_fs lg,
                   Ok (<[H2 := "c/C.txt"]> {[H1 := "c/B.txt"]}, None)))
    as Hch.
  { intros lg. rewrite scanHashes_readable by (by repeat constructor).
    unfold hashes, hash_step. cbn [foldl].
    rewrite (digest_of_readable _ _ "c/B.txt"
               (String.list_byte_of_string "0123456789")) by reflexivity.
    rewrite (digest_of_readable _ _ "c/C.txt"
               (String.list_byte_of_string "abcdefghij")) by reflexivity.
    by rewrite insert_empty. }
  assert (∀ lg, main_size_body Sum256 false {[10 := ["c/B.txt"; "c/C.txt"]]}
                  (10, ["k/A.txt"]) (0, 0) (World scenario_fs lg)
                = (World (delete "c/B.txt" scenario_fs)
                         (lg ++ [LogDeleting "c/B.txt" "k/A.txt"]), Ok (1, 10)))
    as Hbody.
  { intros lg. unfold main_size_body. rewrite lookup_singleton_eq.
    step_with ltac:(apply Hkh). step_with ltac:(apply Hch).
    rewrite range_singleton. cbn [forM].
    step_with ltac:(rewrite main_dup_body_live; unfold dup_of; cbn [fst snd];
                    rewrite lookup_insert_ne by exact Hdiff;
                    rewrite lookup_singleton_eq;
                    change (Remove scenario_fs "c/B.txt")
                      with (delete "c/B.txt" scenario_fs, @None error);
                    reflexivity).
    reflexivity. }
  unfold main. cbn [keep clean dry extensions].
  assert (Strings.Split (Strings.ToLower "txt") "," = ["txt"]) as ->
      by reflexivity.
  change (bool_decide ("k" = "") || bool_decide ("c" = "")) with false.
  cbv iota.
  do 7 step_with ltac:(first [apply Hkeep | apply Hclean]). cbn [app].
  rewrite !map_size_singleton, range_singleton. cbn [forM].
  step_with ltac:(etransitivity; [apply bind_Ok; apply Hbody | reflexivity]).
  reflexivity.
Qed.

Lemma scenario_txt_filter_live_plain :
  main plain_digest (Flags "k" "c" false "txt") (World scenario_fs [])
  = (World (delete "c/B.txt" scenario_fs)
       [LogScanning "k"; LogKeepSizes 1; LogScanning "c"; LogCleanSizes 1;
        LogDeleting "c/B.txt" "k/A.txt"; LogSummary 1 10], Ok tt)
  ∧ is_Some (delete "c/B.txt" scenario_fs !! "c/C.txt").
Proof.
  split; [apply scenario_txt_filter_live; by vm_compute|].
  vm_compute. eexists; reflexivity.
Defined.

(** The dry run of the same scenario reports the pair and unlinks
    nothing. *)
Example scenario_txt_filter_dry :
  main plain_digest (Flags "k" "c" true "txt") (World scenario_fs [])
  = (World scenario_fs
       [LogDryRun; LogScanning "k"; LogKeepSizes 1; LogScanning "c";
        LogCleanSizes 1; LogFoundDup "c/B.txt" "k/A.txt"; LogSummary 1 10],
     Ok tt).
Proof. vm_compute. reflexivity. Qed.

(** A scan of the damaged tree: the directory that cannot be listed and
    the name whose lstat fails are logged and skipped, the symbolic link
    is left out, and the files beside and below are filed. *)
Example scanSizes_damaged_tree :
  scanSizes "r" ["txt"] (World damaged_fs [])
  = (World damaged_fs
       [LogWalkSkipping (PathError "open" "r/bad" "permission denied");
        LogWalkSkipping (PathError "lstat" "r/gone" ENOENT)],
     Ok ({[5 := ["r/ok.txt"; "r/sub/deep.txt"]]}, None)).
Proof. vm_compute. reflexivity. Qed.

Example Split_empty : Strings.Split "" "," = [""].
Proof. reflexivity. Qed.

Example Split_two : Strings.Split "jpg,PNG," "," = ["jpg"; "PNG"; ""].
Proof. reflexivity. Qed.

Example Split_long_sep : Strings.Split "a--b-c--" "--" = ["a"; "b-c"; ""].
Proof. reflexivity. Qed.

Example HasSuffix_upper :
  Strings.HasSuffix (Strings.ToLower "d/A.TXT") ".txt" = true.
Proof. reflexivity. Qed.

Example HasSuffix_dot : Strings.HasSuffix "d/a.txt" "." = false.
Proof. reflexivity. Qed.

Example EncodeToString_ex :
  Hex.EncodeToString (String.list_byte_of_string "Go!") = "476f21".
Proof. reflexivity. Qed.

(** ** Further properties of the hash disambiguator *)

Lemma scanHashes_body_exact Sum256 (fs : filesystem) lg path files :
  scanHashes_body Sum256 path files (World fs lg)
  = (World fs (lg ++ omap (skip_line fs) [path]),
     Ok (hash_step Sum256 fs files path)).
Proof.
  unfold scanHashes_body, hash_step, digest_of, skip_line, bind, osOpen.
  cbn [disk logged omap list_omap].
  destruct (Open fs path) as [e|[e|data]]; cbn; [done | done |].
  by rewrite app_nil_r.
Qed.

Lemma forM_scanHashes_exact Sum256 (fs : filesystem) paths :
  ∀ lg files,
    forM paths files (scanHashes_body Sum256) (World fs lg)
    = (World fs (lg ++ omap (skip_line fs) paths),
       Ok (foldl (hash_step Sum256 fs) files paths)).
Proof.
  induction paths as [|p paths IH]; intros lg files.
  - cbn. by rewrite app_nil_r.
  - cbn [forM foldl].
    rewrite (bind_Ok _ _ _ _ _ (scanHashes_body_exact Sum256 fs lg p files)).
    rewrite IH, <-app_assoc. change (p :: paths) with ([p] ++ paths).
    by rewrite omap_app.
Qed.

(** X1: [scanHashes] leaves the store as it is, returns the digest map with
    a nil error, and logs exactly one line for each path it skips, in the
    order of the list: every path that cannot be opened or read has its
    line, and a list of readable paths logs nothing. *)
Theorem scanHashes_logs_each_skipped_file Sum256 (fs : filesystem) lg paths :
  scanHashes Sum256 paths (World fs lg)
  = (World fs (lg ++ omap (skip_line fs) paths),
     Ok (hashes Sum256 fs paths, None))
  ∧ (∀ p, p ∈ paths → unreadable fs p →
          ∃ l, skip_line fs p = Some l ∧ l ∈ omap (skip_line fs) paths)
  ∧ (Forall (λ p, ¬ unreadable fs p) paths → omap (skip_line fs) paths = []).
Proof.
  split; [|split].
  - unfold scanHashes.
    by rewrite (bind_Ok _ _ _ _ _ (forM_scanHashes_exact Sum256 fs paths lg ∅)).
  - intros p Hin Hp.
    assert (is_Some (skip_line fs p)) as [l Hl].
    { unfold skip_line. destruct Hp as [[e ->]|[e ->]]; eauto. }
    exists l. split; [done|]. apply list_elem_of_omap. eauto.
  - induction 1 as [|p paths Hp _ IH]; [done|].
    cbn [omap list_omap]. unfold unreadable in Hp. unfold skip_line at 1.
    destruct (Open fs p) as [e|[e|data]]; [| |exact IH].
    + exfalso. apply Hp. eauto.
    + exfalso. apply Hp. eauto.
Qed.

Lemma hashes_size_le Sum256 (fs : filesystem) paths :
  (size (hashes Sum256 fs paths) ≤ length paths)%nat.
Proof.
  unfold hashes.
  assert (∀ files : gmap string string,
            (size (foldl (hash_step Sum256 fs) files paths)
             ≤ size files + length paths)%nat) as H.
  { induction paths as [|p paths IH]; intros files; cbn [foldl length]; [lia|].
    etrans; [apply IH|]. unfold hash_step.
    destruct (digest_of Sum256 fs p) as [d|]; [|lia].
    pose proof (map_size_insert d p files) as Hs.
    destruct (files !! d); simpl in Hs; lia. }
  specialize (H ∅). by rewrite map_size_empty in H.
Qed.

(** X2: every entry of the map [scanHashes] returns maps the hex digest of
    the content of a path to that path, the path is one of the list and
    could be read; the map has at most as many entries as the list has
    paths. *)
Theorem scanHashes_entries_are_inputs Sum256 (fs : filesystem) lg paths :
  ∃ files extra,
    scanHashes Sum256 paths (World fs lg)
    = (World fs (lg ++ extra), Ok (files, None))
    ∧ (∀ d p, files !! d = Some p →
              p ∈ paths ∧ ∃ data, Open fs p = inr (inr data)
                                  ∧ d = Hex.EncodeToString (Sum256 data))
    ∧ (size files ≤ length paths)%nat.
Proof.
  destruct (scanHashes_spec Sum256 fs lg paths) as (extra & H & _).
  exists (hashes Sum256 fs paths), extra. split; [done|]. split.
  - intros d p [Hin Hd]%hashes_lookup_Some. split; [done|].
    unfold digest_of in Hd. destruct (Open fs p) as [e|[e|data]]; [done|done|].
    exists data. split; [done | congruence].
  - apply hashes_size_le.
Qed.

Lemma hashes_app Sum256 (fs : filesystem) l1 l2 :
  hashes Sum256 fs (l1 ++ l2) = hashes Sum256 fs l2 ∪ hashes Sum256 fs l1.
Proof.
  apply map_eq. intros d. rewrite lookup_union, !hashes_lookup, filter_app.
  rewrite last_app.
  by destruct (last (filter _ l2)), (last (filter _ l1)).
Qed.

(** X3: hashing the concatenation of two lists gives the union of the two
    maps in which the entries of the second list win, and logs the lines of
    the first list followed by the lines of the second. *)
Theorem scanHashes_concat Sum256 (fs : filesystem) lg l1 l2 :
  ∃ m1 m2 x1 x2 x12,
    scanHashes Sum256 l1 (World fs lg) = (World fs (lg ++ x1), Ok (m1, None))
    ∧ scanHashes Sum256 l2 (World fs lg) = (World fs (lg ++ x2), Ok (m2, None))
    ∧ scanHashes Sum256 (l1 ++ l2) (World fs lg)
      = (World fs (lg ++ x12), Ok (m2 ∪ m1, None))
    ∧ x12 = x1 ++ x2.
Proof.
  exists (hashes Sum256 fs l1), (hashes Sum256 fs l2),
         (omap (skip_line fs) l1), (omap (skip_line fs) l2),
         (omap (skip_line fs) (l1 ++ l2)).
  unfold scanHashes.
  rewrite !(bind_Ok _ _ _ _ _ (forM_scanHashes_exact Sum256 fs _ lg ∅)).
  fold (hashes Sum256 fs l1) (hashes Sum256 fs l2) (hashes Sum256 fs (l1 ++ l2)).
  rewrite hashes_app. split; [done|]. split; [done|]. split; [done|].
  apply omap_app.
Qed.

(** ** Further properties of the size scanner *)






Lemma walk_names_invariant {St : Type} (P : St → Prop) (fs : filesystem)
    (fn : WalkFunc St) rec path :
  (∀ path info err s, P s → P (fn path info err s).1) →
  (∀ p i s r, P s → rec p i s = Some r → P r.1) →
  ∀ names s r, P s → walk_names rec fs path fn names s = Some r → P r.1.
Proof.
  intros Hfn Hrec names.
  induction names as [|name rest IH]; intros s r Hs Hw.
  - cbn in Hw. by simplify_eq.
  - rewrite walk_names_cons in Hw.
    destruct (Lstat fs (Join path name)) as [e|fileInfo].
    + pose proof (Hfn (Join path name) None (Some e) s Hs) as H1.
      destruct (fn (Join path name) None (Some e) s) as [s' err].
      destruct (_ && _); [simplify_eq; exact H1 | by eapply IH].
    + destruct (rec (Join path name) fileInfo s) as [[s' err]|] eqn:Hr; [|done].
      pose proof (Hrec _ _ _ _ Hs Hr) as H1.
      destruct (_ && _); [simplify_eq; exact H1 | by eapply IH].
Qed.

Lemma walk_invariant {St : Type} (P : St → Prop) (fs : filesystem)
    (fn : WalkFunc St) :
  (∀ path info err s, P s → P (fn path info err s).1) →
  ∀ fuel path info s r, P s → walk fuel fs path info fn s = Some r → P r.1.
Proof.
  intros Hfn fuel. induction fuel as [|fuel IH]; intros path info s r Hs Hw;
    [done|].
  rewrite walk_S in Hw. destruct (negb (IsDir info)).
  - simplify_eq. by apply Hfn.
  - cbv zeta in Hw.
    match type of Hw with context [fn path (Some info) ?e s] =>
      pose proof (Hfn path (Some info) e s Hs) as H1;
      destruct (fn path (Some info) e s) as [s1 err1] end.
    cbn [fst] in H1. cbv beta iota in Hw.
    destruct (_ || _); [simplify_eq; exact H1|].
    eapply walk_names_invariant; [exact Hfn | | exact H1 | exact Hw].
    intros p i s' r' Hs' Hr'. exact (IH _ _ _ _ Hs' Hr').
Qed.

Lemma scanSizes_fn_no_empty_bucket sfx path info err s :
  (∀ sz, s.1 !! sz ≠ Some []) →
  ∀ sz, (scanSizes_fn sfx path info err s).1.1 !! sz ≠ Some [].
Proof.
  destruct s as [names lg]. intros Hs sz. unfold scanSizes_fn.
  destruct err; [apply Hs|]. destruct info as [info|]; [|apply Hs].
  destruct (negb _); [apply Hs|]. destruct (_ && _); [apply Hs|].
  cbn [fst]. destruct (decide (int (Size info) = sz)) as [->|Hne].
  - rewrite lookup_insert_eq. intros [=]. by destruct (default [] _).
  - rewrite lookup_insert_ne by done. apply Hs.
Qed.

Lemma sizes_no_empty_bucket (fs : filesystem) root sfx sz :
  sizes fs root sfx !! sz ≠ Some [].
Proof.
  unfold sizes, Walk.
  set (P := λ s : gmap Z (list string) * list logline, ∀ sz, s.1 !! sz ≠ Some []).
  assert (P (∅, [])) as H0 by (intros sz'; cbn [fst]; by rewrite lookup_empty).
  destruct (Lstat fs root) as [e|info].
  - pose proof (scanSizes_fn_no_empty_bucket sfx root None (Some e) (∅, []) H0)
      as H1.
    destruct (scanSizes_fn sfx root None (Some e) (∅, [])) as [[names lg] err].
    destruct (_ || _); apply H1.
  - destruct (walk _ fs root info _ _) as [[[names lg] err]|] eqn:Hw;
      [|apply H0].
    pose proof (walk_invariant P fs (scanSizes_fn sfx)
                  (λ path info err s, scanSizes_fn_no_empty_bucket sfx path info err s)
                  _ _ _ _ _ H0 Hw) as H1.
    destruct (_ || _); apply H1.
Qed.

Lemma bucket_Some (names : gmap Z (list string)) sz l :
  names !! sz = Some l → bucket names sz = l.
Proof. intros H. unfold bucket. by rewrite H. Qed.

(** X6: in the map [scanSizes] returns every path is filed under the
    wrapped size of its own file, hence under one size only; a size is a
    key exactly when some accepted regular file reached from the root has
    it, and no key has an empty list. *)
Theorem scanSizes_keys_are_file_sizes (fs : filesystem) root sfx lg :
  ∃ names extra,
    scanSizes root sfx (World fs lg) = (World fs (lg ++ extra), Ok (names, None))
    ∧ (∀ sz p, p ∈ bucket names sz →
               ∃ nd, fs !! p = Some nd ∧ sz = int (Size (i_info nd)))
    ∧ (∀ sz1 sz2 p, p ∈ bucket names sz1 → p ∈ bucket names sz2 → sz1 = sz2)
    ∧ (∀ sz, is_Some (names !! sz) ↔ ∃ p, found fs sfx root p sz)
    ∧ (∀ sz, names !! sz ≠ Some []).
Proof.
  destruct (scanSizes_spec fs sfx root lg) as (extra & H & _ & Hnames).
  exists (sizes fs root sfx), extra. split; [done|].
  assert (∀ sz p, p ∈ bucket (sizes fs root sfx) sz →
                  ∃ nd, fs !! p = Some nd ∧ sz = int (Size (i_info nd))) as Hsz.
  { intros sz p (nd & ? & ?)%sizes_sized. eauto. }
  split; [done|]. split; [|split; [|apply sizes_no_empty_bucket]].
  - intros sz1 sz2 p (nd1 & ? & ->)%Hsz (nd2 & ? & ->)%Hsz. congruence.
  - intros sz. split.
    + intros [l Hl].
      destruct l as [|p l]; [by apply sizes_no_empty_bucket in Hl|].
      exists p. apply Hnames. rewrite (bucket_Some _ _ _ Hl). by left.
    + intros [p Hp%Hnames]. unfold bucket in Hp.
      destruct (sizes fs root sfx !! sz); [done | by apply elem_of_nil in Hp].
Qed.



(** ** Further properties of whole runs *)

(** X8: [main] leaves at the usage check exactly when the keep root or the
    clean root is empty; it has then logged the usage line only and left
    the store as it was. *)
Theorem usage_exit_iff Sum256 (R : MapRange) f (fs : filesystem) :
  ((main Sum256 f (World fs [])).2 = Exit ExitUsage ↔ keep f = "" ∨ clean f = "")
  ∧ (keep f = "" ∨ clean f = "" →
     main Sum256 f (World fs []) = (World fs [LogRequired], Exit ExitUsage)).
Proof.
  split; [|apply main_usage]. split; [|by intros H; rewrite main_usage].
  intros H.
  destruct (decide (keep f = "")) as [|Hk]; [by left|].
  destruct (decide (clean f = "")) as [|Hc]; [by right|].
  pose proof (main_run Sum256 f fs Hk Hc) as Hrun. cbv zeta in Hrun.
  destruct (main Sum256 f (World fs [])) as [w' [[]|site|]]; [done| |done].
  cbn in H. destruct Hrun as (_ & -> & _). done.
Qed.

Lemma bucket_last_Some (names : gmap Z (list string)) sz (P : string → Prop)
    `{∀ x, Decision (P x)} x :
  last (filter P (bucket names sz)) = Some x →
  ∃ l, names !! sz = Some l ∧ last (filter P l) = Some x.
Proof.
  unfold bucket. destruct (names !! sz) as [l|]; [eauto | done].
Qed.

Lemma all_dups_iff Sum256 {R : MapRange} (fs : filesystem) KS CS k c :
  (k, c) ∈ all_dups Sum256 fs KS CS ↔ matched Sum256 fs KS CS k c.
Proof.
  unfold all_dups, matched. split.
  - intros ([sz kn] & Hin & He)%list_elem_of_bind.
    apply range_elem_of in He. unfold size_dups in Hin. simpl in Hin.
    destruct (CS !! sz) as [cn|] eqn:HC; [|by apply elem_of_nil in Hin].
    apply list_elem_of_omap in Hin as ([d k'] & Hd & Hdup).
    apply range_elem_of in Hd. unfold dup_of in Hdup. simpl in Hdup.
    destruct (hashes Sum256 fs cn !! d) as [c'|] eqn:Hc'; [|done].
    simplify_eq. exists sz, d.
    rewrite (bucket_Some _ _ _ He), (bucket_Some _ _ _ HC).
    by rewrite <-!hashes_lookup.
  - intros (sz & d & (kn & HK & Hk)%bucket_last_Some
                   & (cn & HC & Hc)%bucket_last_Some).
    rewrite <-hashes_lookup in Hk, Hc.
    apply list_elem_of_bind. exists (sz, kn). split; [|by apply range_elem_of].
    unfold size_dups. simpl. rewrite HC.
    apply list_elem_of_omap. exists (d, k). split; [by apply range_elem_of|].
    unfold dup_of. simpl. by rewrite Hc.
Qed.

(** X9: a dry run with both roots given always runs to its end and leaves
    the store as it was; it reports exactly the matched pairs, and for
    every keep file and clean file of one size and one digest it reports
    some pair with that digest. *)
Theorem dry_run_reports_last_matches Sum256 (R : MapRange) f (fs : filesystem) :
  keep f ≠ "" → clean f ≠ "" → dry f = true →
  ∃ lg,
    main Sum256 f (World fs []) = (World fs lg, Ok tt)
    ∧ deleting lg = []
    ∧ (∀ k c, (k, c) ∈ reported lg
              ↔ matched Sum256 fs (sizes fs (keep f) (suffixes_of f))
                                  (sizes fs (clean f) (suffixes_of f)) k c)
    ∧ (∀ sz d k c,
          k ∈ bucket (sizes fs (keep f) (suffixes_of f)) sz →
          c ∈ bucket (sizes fs (clean f) (suffixes_of f)) sz →
          digest_of Sum256 fs k = Some d → digest_of Sum256 fs c = Some d →
          ∃ k' c', (k', c') ∈ reported lg
                   ∧ digest_of Sum256 fs k' = Some d
                   ∧ digest_of Sum256 fs c' = Some d).
Proof.
  intros Hk Hc Hdry.
  pose proof (main_run Sum256 f fs Hk Hc) as H. cbv zeta in H.
  rewrite Hdry in H.
  destruct (main Sum256 f (World fs [])) as [[fs' lg] [[]|site|]];
    [|by destruct H as [? _]|done].
  destruct H as (Hfs & Hrep & Hdel). cbn [disk logged] in *. subst fs'.
  exists lg. split; [done|]. split; [done|].
  assert (∀ k c, (k, c) ∈ reported lg
                 ↔ matched Sum256 fs (sizes fs (keep f) (suffixes_of f))
                                     (sizes fs (clean f) (suffixes_of f)) k c)
    as Hiff by (intros; rewrite Hrep; apply all_dups_iff).
  split; [done|].
  intros sz d k c Hkin Hcin Hkd Hcd.
  assert (∀ l p, p ∈ l → digest_of Sum256 fs p = Some d →
                 ∃ q, last (filter (λ p, digest_of Sum256 fs p = Some d) l) = Some q
                      ∧ digest_of Sum256 fs q = Some d) as Hlast.
  { intros l p Hp Hpd.
    assert (p ∈ filter (λ p, digest_of Sum256 fs p = Some d) l) as Hf
        by by apply list_elem_of_filter.
    destruct (last (filter (λ p, digest_of Sum256 fs p = Some d) l))
      as [q|] eqn:Hq.
    - exists q. split; [done|].
      apply last_Some_elem_of, list_elem_of_filter in Hq. tauto.
    - apply last_None in Hq. rewrite Hq in Hf. by apply elem_of_nil in Hf. }
  destruct (Hlast _ _ Hkin Hkd) as (k' & Hk' & Hk'd).
  destruct (Hlast _ _ Hcin Hcd) as (c' & Hc' & Hc'd).
  exists k', c'. split; [|done]. apply Hiff. by exists sz, d.
Qed.

Lemma dry_run_reports_last_matches_witness :
  ∃ lg,
    main plain_digest (Flags "k" "c" true "txt") (World scenario_fs [])
    = (World scenario_fs lg, Ok tt)
    ∧ deleting lg = []
    ∧ (("k/A.txt", "c/B.txt") ∈ reported lg
       ↔ matched plain_digest scenario_fs
           (sizes scenario_fs "k" ["txt"]) (sizes scenario_fs "c" ["txt"])
           "k/A.txt" "c/B.txt").
Proof.
  destruct (dry_run_reports_last_matches plain_digest range_canonical
              (Flags "k" "c" true "txt") scenario_fs)
    as (lg & Hrun & Hdel & Hiff & _); [done | done | reflexivity |].
  exists lg. split; [exact Hrun|]. split; [exact Hdel|]. apply Hiff.
Defined.

Lemma dups_NoDup Sum256 (fs : filesystem) cn kn (l : list (string * string)) :
  NoDup l.*1 →
  (∀ e, e ∈ l → hashes Sum256 fs kn !! e.1 = Some e.2) →
  NoDup (omap (dup_of (hashes Sum256 fs cn)) l).*1
  ∧ NoDup (omap (dup_of (hashes Sum256 fs cn)) l).*2.
Proof.
  induction l as [|[key kp] l IH]; intros Hnd Hl; [split; constructor|].
  apply NoDup_cons in Hnd as [Hkey Hnd].
  destruct IH as [IH1 IH2]; [done | intros; apply Hl; by right |].
  cbn [omap list_omap].
  destruct (dup_of (hashes Sum256 fs cn) (key, kp)) as [[k0 c]|] eqn:Hdup0;
    [|by split].
  assert (k0 = kp ∧ hashes Sum256 fs cn !! key = Some c) as [-> Hc].
  { unfold dup_of in Hdup0. cbn [fst snd] in Hdup0.
    destruct (hashes Sum256 fs cn !! key); by simplify_eq. }
  rewrite !fmap_cons. cbn [fst snd].
  assert (∀ key' kp' c', (key', kp') ∈ l →
            dup_of (hashes Sum256 fs cn) (key', kp') = Some (kp', c') →
            kp' ≠ kp ∧ c' ≠ c) as Hne.
  { intros key' kp' c' Hin Hdup.
    assert (key' ≠ key) as Hk.
    { intros ->. apply Hkey. apply list_elem_of_fmap. by exists (key, kp'). }
    unfold dup_of in Hdup. cbn [fst snd] in Hdup.
    destruct (hashes Sum256 fs cn !! key') as [c''|] eqn:Hc''; [|done].
    simplify_eq.
    pose proof (Hl (key', kp') (list_elem_of_further _ _ _ Hin)) as H1.
    pose proof (Hl (key, kp) (list_elem_of_here _ _)) as H2.
    cbn [fst snd] in H1, H2.
    apply hashes_lookup_Some in H1 as [_ H1].
    apply hashes_lookup_Some in H2 as [_ H2].
    apply hashes_lookup_Some in Hc as [_ Hc].
    apply hashes_lookup_Some in Hc'' as [_ Hc''].
    split; intros ->; congruence. }
  split; apply NoDup_cons; (split; [|done]).
  - intros ([k' c'] & Heq & Hin)%list_elem_of_fmap. cbn in Heq. subst k'.
    apply list_elem_of_omap in Hin as ([key' kp'] & Hin & Hdup).
    assert (kp' = kp) as ->.
    { unfold dup_of in Hdup. cbn in Hdup.
      destruct (hashes Sum256 fs cn !! key'); by simplify_eq. }
    by destruct (Hne _ _ _ Hin Hdup).
  - intros ([k' c'] & Heq & Hin)%list_elem_of_fmap. cbn in Heq. subst c'.
    apply list_elem_of_omap in Hin as ([key' kp'] & Hin & Hdup).
    assert (k' = kp') as ->.
    { unfold dup_of in Hdup. cbn in Hdup.
      destruct (hashes Sum256 fs cn !! key'); by simplify_eq. }
    by destruct (Hne _ _ _ Hin Hdup).
Qed.

Lemma size_dups_NoDup Sum256 {R : MapRange} (fs : filesystem) CS e :
  NoDup (size_dups Sum256 fs CS e).*1 ∧ NoDup (size_dups Sum256 fs CS e).*2.
Proof.
  unfold size_dups. destruct (CS !! e.1) as [cn|]; [|split; constructor].
  apply (dups_NoDup _ _ _ e.2); [apply range_NoDup_fst|].
  intros [key kp] Hin. by apply range_elem_of.
Qed.

Lemma size_dups_in_buckets Sum256 {R : MapRange} (fs : filesystem) KS CS e k c :
  e ∈ range KS → (k, c) ∈ size_dups Sum256 fs CS e →
  k ∈ bucket KS e.1 ∧ c ∈ bucket CS e.1.
Proof.
  intros He Hin. destruct e as [sz kn]. apply range_elem_of in He.
  unfold size_dups in Hin. cbn [fst snd] in *.
  destruct (CS !! sz) as [cn|] eqn:HC; [|by apply elem_of_nil in Hin].
  apply list_elem_of_omap in Hin as ([d k'] & Hd & Hdup).
  apply range_elem_of in Hd. unfold dup_of in Hdup. simpl in Hdup.
  destruct (hashes Sum256 fs cn !! d) as [c'|] eqn:Hc'; [|done].
  simplify_eq.
  apply hashes_lookup_Some in Hd as [Hk _].
  apply hashes_lookup_Some in Hc' as [Hc _].
  by rewrite (bucket_Some _ _ _ He), (bucket_Some _ _ _ HC).
Qed.

Lemma all_dups_NoDup Sum256 {R : MapRange} (fs : filesystem)
    root1 sfx1 root2 sfx2 :
  NoDup (all_dups Sum256 fs (sizes fs root1 sfx1) (sizes fs root2 sfx2)).*1
  ∧ NoDup (all_dups Sum256 fs (sizes fs root1 sfx1) (sizes fs root2 sfx2)).*2.
Proof.
  set (KS := sizes fs root1 sfx1). set (CS := sizes fs root2 sfx2).
  assert (∀ e1 e2 k1 c1 k2 c2,
            e1 ∈ range KS → e2 ∈ range KS →
            (k1, c1) ∈ size_dups Sum256 fs CS e1 →
            (k2, c2) ∈ size_dups Sum256 fs CS e2 →
            k1 = k2 ∨ c1 = c2 → e1 = e2) as Hcross.
  { intros e1 e2 k1 c1 k2 c2 He1 He2 H1 H2 Heq.
    destruct (size_dups_in_buckets _ _ _ _ _ _ _ He1 H1) as [Hk1 Hc1].
    destruct (size_dups_in_buckets _ _ _ _ _ _ _ He2 H2) as [Hk2 Hc2].
    assert (e1.1 = e2.1) as Hsz.
    { destruct Heq as [-> | ->].
      - apply sizes_sized in Hk1 as (nd1 & ? & <-).
        apply sizes_sized in Hk2 as (nd2 & ? & <-). congruence.
      - apply sizes_sized in Hc1 as (nd1 & ? & <-).
        apply sizes_sized in Hc2 as (nd2 & ? & <-). congruence. }
    destruct e1 as [s1 l1], e2 as [s2 l2]. cbn in Hsz. subst s2.
    apply range_elem_of in He1, He2. congruence. }
  unfold all_dups. fold KS CS.
  assert (∀ {A} (g : string * string → A) (l : list (Z * list string)),
            g <$> (l ≫= size_dups Sum256 fs CS)
            = l ≫= (λ e, g <$> size_dups Sum256 fs CS e)) as Hfb.
  { intros A g l. induction l as [|e l IH]; [done|].
    by rewrite !bind_cons, fmap_app, IH. }
  rewrite !Hfb. split.
  - apply NoDup_bind.
    + intros e1 e2 y He1 He2 ([k1 c1] & -> & H1)%list_elem_of_fmap
                             ([k2 c2] & Hy & H2)%list_elem_of_fmap.
      cbn in Hy. subst k2. eapply Hcross; eauto.
    + intros e _. apply size_dups_NoDup.
    + eapply NoDup_fmap_1, range_NoDup_fst.
  - apply NoDup_bind.
    + intros e1 e2 y He1 He2 ([k1 c1] & -> & H1)%list_elem_of_fmap
                             ([k2 c2] & Hy & H2)%list_elem_of_fmap.
      cbn in Hy. subst c2. eapply Hcross; eauto.
    + intros e _. apply size_dups_NoDup.
    + eapply NoDup_fmap_1, range_NoDup_fst.
Qed.

(** X10: in a run that reaches its end no keep path and no clean path
    occurs in two pairs, among the pairs reported and among the pairs
    deleted. *)
Theorem matching_is_one_to_one Sum256 (R : MapRange) f (fs : filesystem) w' :
  main Sum256 f (World fs []) = (w', Ok tt) →
  NoDup (reported (logged w')).*1 ∧ NoDup (reported (logged w')).*2
  ∧ NoDup (deleting (logged w')).*1 ∧ NoDup (deleting (logged w')).*2.
Proof.
  intros Hrun.
  destruct (decide (keep f = "")) as [Hk|Hk];
    [by rewrite main_usage in Hrun by (by left)|].
  destruct (decide (clean f = "")) as [Hc|Hc];
    [by rewrite main_usage in Hrun by (by right)|].
  pose proof (main_run Sum256 f fs Hk Hc) as H. cbv zeta in H.
  rewrite Hrun in H.
  destruct (all_dups_NoDup Sum256 fs (keep f) (suffixes_of f)
                           (clean f) (suffixes_of f)) as [H1 H2].
  destruct (dry f).
  - destruct H as (_ & -> & ->). repeat split; first [done | constructor].
  - destruct H as (_ & -> & ->). repeat split; first [done | constructor].
Qed.

Lemma matching_is_one_to_one_witness :
  NoDup (deleting (logged (main plain_digest (Flags "k" "c" false "txt")
                                (World scenario_fs [])).1)).*2.
Proof.
  destruct (matching_is_one_to_one plain_digest range_canonical
              (Flags "k" "c" false "txt") scenario_fs
              (main plain_digest (Flags "k" "c" false "txt")
                    (World scenario_fs [])).1)
    as (_ & _ & _ & H).
  - vm_compute. reflexivity.
  - exact H.
Defined.

Lemma Remove_unlinkable (fs : filesystem) path nd :
  fs !! path = Some nd → i_unlink nd = None →
  Remove fs path = (delete path fs, None).
Proof. intros H1 H2. unfold Remove. by rewrite H1, H2. Qed.

Lemma Remove_None_inv (fs fs' : filesystem) path :
  Remove fs path = (fs', None) →
  ∃ nd, fs !! path = Some nd ∧ i_unlink nd = None.
Proof.
  unfold Remove. destruct (fs !! path) as [nd|]; [|done].
  destruct (i_unlink nd) eqn:Hu; [done|]. eauto.
Qed.

Lemma forM_dups_live_ok size cleaners l :
  ∀ (fs : filesystem) lg acc,
    NoDup (omap (dup_of cleaners) l).*2 →
    (∀ c, c ∈ (omap (dup_of cleaners) l).*2 →
          ∃ nd, fs !! c = Some nd ∧ i_unlink nd = None) →
    forM l acc (main_dup_body false size cleaners) (World fs lg)
    = (World (unlink_all fs (omap (dup_of cleaners) l))
             (lg ++ map deleting_line (omap (dup_of cleaners) l)),
       Ok (tally size acc (omap (dup_of cleaners) l))).
Proof.
  induction l as [|entry l IH]; intros fs lg acc Hnd Hok.
  - cbn. by rewrite app_nil_r.
  - cbn [forM]. cbn [omap list_omap] in Hnd, Hok |- *.
    destruct (dup_of cleaners entry) as [p|] eqn:Hp.
    + rewrite fmap_cons in Hnd, Hok. apply NoDup_cons in Hnd as [Hnin Hnd].
      destruct (Hok p.2) as (nd & Hnd1 & Hnd2); [by left|].
      erewrite bind_Ok;
        [|rewrite main_dup_body_live, Hp, (Remove_unlinkable _ _ _ Hnd1 Hnd2);
          reflexivity].
      rewrite IH; [by rewrite <-app_assoc | done |].
      intros c Hc.
      assert (p.2 ≠ c) as Hne by (intros Heq; apply Hnin; by rewrite Heq).
      rewrite lookup_delete_ne by done. apply Hok. by right.
    + erewrite bind_Ok; [|by rewrite main_dup_body_live, Hp]. by apply IH.
Qed.

Lemma forM_dups_live_inv size cleaners l :
  ∀ (fs : filesystem) lg acc w' acc',
    forM l acc (main_dup_body false size cleaners) (World fs lg) = (w', Ok acc') →
    ∀ c, c ∈ (omap (dup_of cleaners) l).*2 →
         ∃ nd, fs !! c = Some nd ∧ i_unlink nd = None.
Proof.
  induction l as [|entry l IH]; intros fs lg acc w' acc' Hrun c Hc.
  - by apply elem_of_nil in Hc.
  - cbn [forM] in Hrun. unfold bind at 1 in Hrun.
    rewrite main_dup_body_live in Hrun. cbn [omap list_omap] in Hc.
    destruct (dup_of cleaners entry) as [p|]; [|by eapply IH].
    rewrite fmap_cons in Hc.
    destruct (Remove fs p.2) as [fs' [e|]] eqn:HR; [done|].
    pose proof (Remove_None_inv _ _ _ HR) as Hp.
    apply Remove_ok in HR as ->.
    apply elem_of_cons in Hc as [->|Hc]; [done|].
    destruct (IH _ _ _ _ _ Hrun c Hc) as (nd' & Hl & Hu).
    apply lookup_delete_Some in Hl as [_ Hl]. eauto.
Qed.

Lemma forM_sizes_live_Ok_iff Sum256 {R : MapRange} (fs0 : filesystem) KS CS :
  (∀ sz p, p ∈ bucket KS sz →
           ∃ nd, fs0 !! p = Some nd ∧ int (Size (i_info nd)) = sz) →
  (∀ sz p, p ∈ bucket CS sz →
           ∃ nd, fs0 !! p = Some nd ∧ int (Size (i_info nd)) = sz) →
  ∀ l,
    NoDup l.*1 →
    (∀ e, e ∈ l → KS !! e.1 = Some e.2) →
    ∀ (fs : filesystem) lg acc,
      (∀ e p, e ∈ l → p ∈ e.2 ∨ p ∈ bucket CS e.1 → fs !! p = fs0 !! p) →
      (∃ w' acc',
          forM l acc (main_size_body Sum256 false CS) (World fs lg)
          = (w', Ok acc'))
      ↔ (∀ c, c ∈ (l ≫= size_dups Sum256 fs0 CS).*2 →
              ∃ nd, fs0 !! c = Some nd ∧ i_unlink nd = None).
Proof.
  intros HKS HCS l.
  induction l as [|[size kn] l IH]; intros Hnd Hl fs lg acc Hagree.
  - split; [intros _ c Hc; by apply elem_of_nil in Hc | intros _; by eexists _, _].
  - apply NoDup_cons in Hnd as [Hsize Hnd].
    destruct (main_size_body_eq Sum256 false CS size kn acc fs lg)
      as (x1 & _ & Hbody).
    cbn [forM]. unfold bind at 1. rewrite Hbody. rewrite bind_cons, fmap_app.
    assert (∀ e, e ∈ l → KS !! e.1 = Some e.2) as Hl'
        by (intros; apply Hl; by right).
    assert (∀ fs1 : filesystem,
               (∀ p, p ∉ bucket CS size → fs1 !! p = fs !! p) →
               ∀ e p, e ∈ l → p ∈ e.2 ∨ p ∈ bucket CS e.1 →
                      fs1 !! p = fs0 !! p) as Hnext.
    { intros fs1 Hfs1 [sz' kn'] p Hin Hp.
      rewrite <-(Hagree (sz', kn') p (list_elem_of_further _ _ _ Hin) Hp).
      apply Hfs1. intros Hne.
      apply HCS in Hne as (nd & Hnd1 & Hsz1).
      assert (∃ nd', fs0 !! p = Some nd' ∧ int (Size (i_info nd')) = sz')
        as (nd' & Hnd2 & Hsz2).
      { destruct Hp as [Hp|Hp]; [|by apply HCS].
        apply HKS.
        pose proof (Hl (sz', kn') (list_elem_of_further _ _ _ Hin)) as Hk.
        cbn [fst snd] in Hk. by rewrite (bucket_Some _ _ _ Hk). }
      simplify_eq. apply Hsize. apply list_elem_of_fmap.
      by exists (int (Size (i_info nd)), kn'). }
    destruct (CS !! size) as [cn|] eqn:HCsize.
    + rewrite (size_dups_Some _ _ _ _ _ _ HCsize).
      assert (hashes Sum256 fs kn = hashes Sum256 fs0 kn) as ->.
      { apply hashes_ext. intros p Hp.
        apply (Hagree (size, kn)); [by left | by left]. }
      assert (hashes Sum256 fs cn = hashes Sum256 fs0 cn) as ->.
      { apply hashes_ext. intros p Hp.
        apply (Hagree (size, kn)); [by left | right].
        cbn [fst]. by rewrite (bucket_Some _ _ _ HCsize). }
      set (ps := omap (dup_of (hashes Sum256 fs0 cn))
                      (range (hashes Sum256 fs0 kn))).
      assert (∀ e p, e ∈ l → p ∈ e.2 ∨ p ∈ bucket CS e.1 →
                     unlink_all fs ps !! p = fs0 !! p) as Hagree'.
      { apply Hnext. intros p Hnin. rewrite unlink_all_lookup.
        rewrite decide_False; [done|]. intros Hin. apply Hnin.
        apply dups_clean_side in Hin. by rewrite (bucket_Some _ _ _ HCsize). }
      assert (∀ c, c ∈ ps.*2 → fs !! c = fs0 !! c) as Hps.
      { intros c Hc%dups_clean_side.
        apply (Hagree (size, kn)); [by left | right].
        cbn [fst]. by rewrite (bucket_Some _ _ _ HCsize). }
      assert (NoDup ps.*2) as Hpsnd.
      { apply (dups_NoDup _ _ _ kn); [apply range_NoDup_fst|].
        intros [key kp] Hin. by apply range_elem_of. }
      pose proof (forM_dups_live size (hashes Sum256 fs0 cn)
                    (range (hashes Sum256 fs0 kn)) fs (lg ++ x1) acc)
        as Hinner.
      fold ps in Hinner.
      split.
      * intros (w' & acc' & Hrun) c Hc.
        match type of Hinner with
        | context [forM ?a ?b ?c ?d] =>
            destruct (forM a b c d) as [w1 [acc1|site|]] eqn:Hin
        end; [|done|done].
        apply elem_of_app in Hc as [Hc|Hc].
        -- destruct (forM_dups_live_inv _ _ _ _ _ _ _ _ Hin c Hc)
             as (nd & Hnd1 & Hnd2).
           rewrite Hps in Hnd1 by done. eauto.
        -- destruct Hinner as [-> ->].
           eapply (IH Hnd Hl' _ _ _ Hagree'); [by eauto | done].
      * intros Hall. rewrite forM_dups_live_ok; [|done|].
        -- fold ps. apply (IH Hnd Hl' _ _ _ Hagree').
           intros c Hc. apply Hall, elem_of_app. by right.
        -- intros c Hc. rewrite Hps by done. apply Hall, elem_of_app. by left.
    + rewrite (size_dups_None _ _ _ _ _ HCsize), fmap_nil, app_nil_l.
      apply IH; [done | done |]. apply Hnext. done.
Qed.

Lemma main_live_Ok_iff Sum256 {R : MapRange} f (fs : filesystem) :
  keep f ≠ "" → clean f ≠ "" → dry f = false →
  (main Sum256 f (World fs [])).2 = Ok tt
  ↔ removable Sum256 fs (sizes fs (keep f) (suffixes_of f))
                        (sizes fs (clean f) (suffixes_of f)).
Proof.
  intros Hk Hc Hdry.
  set (KS := sizes fs (keep f) (suffixes_of f)).
  set (CS := sizes fs (clean f) (suffixes_of f)).
  destruct (main_shape Sum256 f fs Hk Hc) as (lg1 & _ & _ & ->).
  rewrite Hdry. fold KS CS.
  pose proof (forM_sizes_live_Ok_iff Sum256 fs KS CS
                (λ sz p, sizes_sized fs _ _ sz p)
                (λ sz p, sizes_sized fs _ _ sz p)
                (range KS) (range_NoDup_fst KS)) as H.
  specialize (H (λ e He, proj1 (range_elem_of KS e.1 e.2)
                           ltac:(by destruct e)) fs lg1 (0, 0)
                (λ _ _ _ _, eq_refl)).
  assert (removable Sum256 fs KS CS
          ↔ ∀ c, c ∈ (range KS ≫= size_dups Sum256 fs CS).*2 →
                 ∃ nd, fs !! c = Some nd ∧ i_unlink nd = None) as Hrem.
  { unfold removable. split.
    - intros Hr c ([k c'] & -> & Hin)%list_elem_of_fmap.
      pose proof Hin as Hm. apply all_dups_iff in Hm.
      pose proof Hin as (sz & d & _ & Hcin & _)%all_dups_elem.
      apply sizes_sized in Hcin as (nd & Hnd & _).
      exists nd. split; [done|]. by eapply Hr.
    - intros Hr k c nd Hm Hnd. apply (all_dups_iff Sum256 fs KS CS k c) in Hm.
      destruct (Hr c) as (nd' & Hnd' & Hu).
      { apply list_elem_of_fmap. by exists (k, c). }
      cbn [snd] in Hnd'. congruence. }
  rewrite Hrem, <-H.
  destruct (forM _ _ _ _) as [w1 [acc1|site|]]; cbn [snd]; split;
    try done; try (by intros (? & ? & ?)); by eexists _, _.
Qed.

(** X11: a live run with both roots given in which every matched clean
    file can be unlinked runs to its end: it reports nothing, deletes
    exactly the matched pairs, and the store it leaves is the store it
    found without the clean paths of these pairs. *)
Theorem live_run_deletes_last_matches Sum256 (R : MapRange) f
    (fs : filesystem) :
  keep f ≠ "" → clean f ≠ "" → dry f = false →
  removable Sum256 fs (sizes fs (keep f) (suffixes_of f))
                      (sizes fs (clean f) (suffixes_of f)) →
  ∃ lg,
    main Sum256 f (World fs []) = (World (unlink_all fs (deleting lg)) lg, Ok tt)
    ∧ reported lg = []
    ∧ (∀ k c, (k, c) ∈ deleting lg
              ↔ matched Sum256 fs (sizes fs (keep f) (suffixes_of f))
                                  (sizes fs (clean f) (suffixes_of f)) k c)
    ∧ (∀ p, unlink_all fs (deleting lg) !! p
            = if decide (p ∈ (deleting lg).*2) then None else fs !! p).
Proof.
  intros Hk Hc Hdry Hrem.
  apply (main_live_Ok_iff Sum256 f fs Hk Hc Hdry) in Hrem.
  pose proof (main_run Sum256 f fs Hk Hc) as H. cbv zeta in H.
  rewrite Hdry in H.
  destruct (main Sum256 f (World fs [])) as [[fs' lg] r].
  cbn [snd] in Hrem. subst r. destruct H as (Hdisk & Hdel & Hrep).
  cbn [disk logged] in *. subst fs'.
  exists lg. rewrite Hdel. split; [done|]. split; [done|]. split.
  - intros k c. apply all_dups_iff.
  - intros p. apply unlink_all_lookup.
Qed.

Lemma scenario_regular_unlinkable p nd :
  scenario_fs !! p = Some nd → IsRegular (i_info nd) = true → i_unlink nd = None.
Proof.
  intros Hnd Hreg. apply elem_of_list_to_map_2 in Hnd.
  repeat (apply elem_of_cons in Hnd as [Heq|Hnd];
          [injection Heq as -> ->; first [reflexivity | by vm_compute in Hreg]|]).
  by apply elem_of_nil in Hnd.
Qed.

Lemma scenario_removable :
  removable plain_digest scenario_fs
            (sizes scenario_fs "k" ["txt"]) (sizes scenario_fs "c" ["txt"]).
Proof.
  intros k c nd (sz & d & _ & Hc) Hnd.
  apply last_Some_elem_of, list_elem_of_filter in Hc as [_ Hc].
  destruct (scanSizes_spec scenario_fs ["txt"] "c" []) as (_ & _ & _ & H).
  apply H in Hc as (_ & nd' & Hnd' & Hreg & _).
  rewrite Hnd in Hnd'. injection Hnd' as <-.
  by eapply scenario_regular_unlinkable.
Qed.

Lemma live_run_deletes_last_matches_witness :
  ∃ lg,
    main plain_digest (Flags "k" "c" false "txt") (World scenario_fs [])
    = (World (unlink_all scenario_fs (deleting lg)) lg, Ok tt)
    ∧ reported lg = [].
Proof.
  destruct (live_run_deletes_last_matches plain_digest range_canonical
              (Flags "k" "c" false "txt") scenario_fs)
    as (lg & Hrun & Hrep & _);
    [done | done | reflexivity | exact scenario_removable |].
  exists lg. split; [exact Hrun | exact Hrep].
Defined.

(** X12: a live run with both roots given runs to its end exactly when
    every matched clean file can be unlinked, and leaves through
    [log.Fatalf] at the failed [os.Remove] exactly when some matched clean
    file cannot. *)
Theorem live_run_completes_iff_matches_removable Sum256 (R : MapRange) f
    (fs : filesystem) :
  keep f ≠ "" → clean f ≠ "" → dry f = false →
  ((main Sum256 f (World fs [])).2 = Ok tt
   ↔ removable Sum256 fs (sizes fs (keep f) (suffixes_of f))
                         (sizes fs (clean f) (suffixes_of f)))
  ∧ ((main Sum256 f (World fs [])).2 = Exit FatalRemove
     ↔ ¬ removable Sum256 fs (sizes fs (keep f) (suffixes_of f))
                             (sizes fs (clean f) (suffixes_of f))).
Proof.
  intros Hk Hc Hdry.
  pose proof (main_live_Ok_iff Sum256 f fs Hk Hc Hdry) as Hiff.
  split; [done|]. rewrite <-Hiff.
  pose proof (main_run Sum256 f fs Hk Hc) as H. cbv zeta in H.
  destruct (main Sum256 f (World fs [])) as [w' [[]|site|]]; cbn [snd].
  - split; [done | intros Hn; by destruct Hn].
  - destruct H as (_ & -> & _). split; [by intros _ ? | done].
  - done.
Qed.

Lemma live_run_completes_iff_matches_removable_witness :
  (main plain_digest (Flags "k" "c" false "txt") (World scenario_fs [])).2
  = Ok tt
  ↔ removable plain_digest scenario_fs
              (sizes scenario_fs "k" ["txt"]) (sizes scenario_fs "c" ["txt"]).
Proof.
  destruct (live_run_completes_iff_matches_removable plain_digest
              range_canonical (Flags "k" "c" false "txt") scenario_fs)
    as [H _]; [done | done | reflexivity |].
  exact H.
Defined.

Lemma int_add_l a b : int (int a + b) = int (a + b).
Proof.
  unfold int.
  replace ((a + 2 ^ 63) `mod` 2 ^ 64 - 2 ^ 63 + b + 2 ^ 63)
    with ((a + 2 ^ 63) `mod` 2 ^ 64 + b) by lia.
  rewrite Z.add_mod_idemp_l by lia. f_equal. f_equal. lia.
Qed.

Lemma int_small z : - 2 ^ 63 ≤ z < 2 ^ 63 → int z = z.
Proof. intros H. unfold int. rewrite Z.mod_small; lia. Qed.

Lemma sum_sizes_app fs ps1 ps2 :
  sum_sizes fs (ps1 ++ ps2) = sum_sizes fs ps1 + sum_sizes fs ps2.
Proof.
  induction ps1 as [|p ps1 IH]; [done|].
  change (sum_sizes fs ((p :: ps1) ++ ps2))
    with (size_at fs p.2 + sum_sizes fs (ps1 ++ ps2)).
  change (sum_sizes fs (p :: ps1)) with (size_at fs p.2 + sum_sizes fs ps1).
  lia.
Qed.

Lemma tally_int size a b ps :
  tally size (int a, int b) ps
  = (int (a + Z.of_nat (length ps)), int (b + size * Z.of_nat (length ps))).
Proof.
  revert a b. induction ps as [|p ps IH]; intros a b.
  - cbn. by rewrite Z.add_0_r, Z.mul_0_r, Z.add_0_r.
  - unfold tally in *. cbn [foldl fst snd length].
    rewrite !int_add_l, IH. f_equal; f_equal; lia.
Qed.

Lemma tally_all_int Sum256 {R : MapRange} (fs : filesystem) KS CS l :
  (∀ sz p, p ∈ bucket CS sz →
           ∃ nd, fs !! p = Some nd ∧ int (Size (i_info nd)) = sz) →
  (∀ e, e ∈ l → e ∈ range KS) →
  ∀ a b,
    tally_all Sum256 fs CS (int a, int b) l
    = (int (a + Z.of_nat (length (l ≫= size_dups Sum256 fs CS))),
       int (b + sum_sizes fs (l ≫= size_dups Sum256 fs CS))).
Proof.
  intros HCS. induction l as [|e l IH]; intros Hl a b.
  - cbn. by rewrite !Z.add_0_r.
  - rewrite tally_all_cons, tally_int, IH by (intros; apply Hl; by right).
    rewrite bind_cons, length_app, sum_sizes_app.
    assert (sum_sizes fs (size_dups Sum256 fs CS e)
            = e.1 * Z.of_nat (length (size_dups Sum256 fs CS e))) as ->.
    { assert (∀ k c, (k, c) ∈ size_dups Sum256 fs CS e → size_at fs c = e.1)
        as Hsz.
      { intros k c Hin.
        destruct (size_dups_in_buckets Sum256 fs KS CS e k c) as [_ Hc];
          [apply Hl; by left | done |].
        apply HCS in Hc as (nd & Hnd & Hs). unfold size_at. by rewrite Hnd. }
      induction (size_dups Sum256 fs CS e) as [|[k c] ps IHps]; [cbn; lia|].
      change (sum_sizes fs ((k, c) :: ps)) with (size_at fs c + sum_sizes fs ps).
      rewrite (Hsz k c) by by left.
      rewrite IHps by (intros k' c' ?; apply (Hsz k' c'); by right).
      cbn [length]. lia. }
    f_equal; f_equal; lia.
Qed.

Lemma main_summary Sum256 {R : MapRange} f (fs : filesystem) w' :
  main Sum256 f (World fs []) = (w', Ok tt) →
  ∃ lg acc,
    logged w' = lg ++ [LogSummary acc.1 acc.2]
    ∧ acc = tally_all Sum256 fs (sizes fs (clean f) (suffixes_of f)) (0, 0)
                      (range (sizes fs (keep f) (suffixes_of f)))
    ∧ reported lg ++ deleting lg
      = all_dups Sum256 fs (sizes fs (keep f) (suffixes_of f))
                           (sizes fs (clean f) (suffixes_of f)).
Proof.
  intros Hrun.
  destruct (decide (keep f = "")) as [Hk|Hk];
    [by rewrite main_usage in Hrun by (by left)|].
  destruct (decide (clean f = "")) as [Hc|Hc];
    [by rewrite main_usage in Hrun by (by right)|].
  destruct (main_shape Sum256 f fs Hk Hc) as (lg1 & Hr1 & Hd1 & Hshape).
  rewrite Hshape in Hrun. clear Hshape.
  set (KS := sizes fs (keep f) (suffixes_of f)) in *.
  set (CS := sizes fs (clean f) (suffixes_of f)) in *.
  destruct (dry f).
  - destruct (forM_sizes_dry Sum256 CS fs (range KS) lg1 (0, 0))
      as (extra & Hloop & Hr & Hd).
    rewrite Hloop in Hrun. injection Hrun as <-. cbn [disk logged].
    eexists _, _. split; [done|]. split; [done|].
    rewrite !reported_app, !deleting_app, Hr1, Hd1, Hr, Hd. by rewrite app_nil_r.
  - pose proof (forM_sizes_live Sum256 fs KS CS
                  (λ sz p, sizes_sized fs _ _ sz p)
                  (λ sz p, sizes_sized fs _ _ sz p)
                  (range KS) (range_NoDup_fst KS)
                  (λ e He, proj1 (range_elem_of KS e.1 e.2)
                                 (eq_ind _ (λ x, x ∈ range KS) He _
                                         (surjective_pairing e)))
                  fs lg1 (0, 0) (λ _ _ _ _, eq_refl)) as Hlive.
    match type of Hlive with
    | context [forM ?a ?b ?c ?d] =>
        destruct (forM a b c d) as [w1 [acc|site|]]
    end; [|done|done].
    destruct Hlive as (extra & -> & Hd & Hr & ->).
    injection Hrun as <-. cbn [disk logged].
    eexists _, _. split; [done|]. split; [done|].
    rewrite !reported_app, !deleting_app, Hr1, Hd1, Hr, Hd. done.
Qed.

(** X13: the last line of a run that reaches its end is the summary: its
    file count is the number of pairs reported or deleted and its byte
    count is the sum of the sizes of their clean files, both wrapped to
    [int]; a dry run deletes no pair and a live run reports none. *)
Theorem summary_counts_pairs_and_bytes Sum256 (R : MapRange) f
    (fs : filesystem) w' :
  main Sum256 f (World fs []) = (w', Ok tt) →
  ∃ lg,
    logged w'
    = lg ++ [LogSummary
               (int (Z.of_nat (length (reported lg ++ deleting lg))))
               (int (sum_sizes fs (reported lg ++ deleting lg)))]
    ∧ (dry f = true → deleting lg = [])
    ∧ (dry f = false → reported lg = []).
Proof.
  intros Hrun.
  destruct (main_summary Sum256 f fs w' Hrun) as (lg & acc & Hlog & Hacc & Hps).
  exists lg. split.
  - rewrite Hlog, Hacc, Hps. unfold all_dups.
    change (0, 0) with (int 0, int 0).
    rewrite (tally_all_int Sum256 fs (sizes fs (keep f) (suffixes_of f)));
      [done | apply sizes_sized | done].
  - destruct (decide (keep f = "")) as [Hk|Hk];
      [by rewrite main_usage in Hrun by (by left)|].
    destruct (decide (clean f = "")) as [Hc|Hc];
      [by rewrite main_usage in Hrun by (by right)|].
    pose proof (main_run Sum256 f fs Hk Hc) as H. cbv zeta in H.
    rewrite Hrun in H.
    assert (deleting (logged w') = deleting lg) as Hd
        by (rewrite Hlog, deleting_app; apply app_nil_r).
    assert (reported (logged w') = reported lg) as Hr
        by (rewrite Hlog, reported_app; apply app_nil_r).
    rewrite Hd, Hr in H.
    destruct (dry f); destruct H as (_ & H1 & H2); split; done.
Qed.

Lemma summary_counts_pairs_and_bytes_witness :
  ∃ lg,
    logged (main plain_digest (Flags "k" "c" false "txt")
                 (World scenario_fs [])).1
    = lg ++ [LogSummary
               (int (Z.of_nat (length (reported lg ++ deleting lg))))
               (int (sum_sizes scenario_fs (reported lg ++ deleting lg)))].
Proof.
  destruct (summary_counts_pairs_and_bytes plain_digest range_canonical
              (Flags "k" "c" false "txt") scenario_fs
              (main plain_digest (Flags "k" "c" false "txt")
                    (World scenario_fs [])).1)
    as (lg & Hlog & _).
  - vm_compute. reflexivity.
  - exists lg. exact Hlog.
Defined.

(** X14: a run changes the store at a path in one way only: a live run
    unlinks it, and then the path is a file of the clean scan with the same
    size and digest as some file of the keep scan. *)
Theorem run_only_unlinks_matched_clean_files Sum256 (R : MapRange) f
    (fs : filesystem) p :
  disk (main Sum256 f (World fs [])).1 !! p = fs !! p
  ∨ (dry f = false
     ∧ disk (main Sum256 f (World fs [])).1 !! p = None
     ∧ ∃ k sz d,
         found fs (suffixes_of f) (keep f) k sz
         ∧ found fs (suffixes_of f) (clean f) p sz
         ∧ digest_of Sum256 fs k = Some d ∧ digest_of Sum256 fs p = Some d).
Proof.
  destruct (main_only_unlinks_clean_dups Sum256 f fs p)
    as [H|(Hdry & Hnone & k & sz & d & Hk & Hp & Hkd & Hpd)]; [by left|].
  right. split; [done|]. split; [done|]. exists k, sz, d.
  destruct (scanSizes_spec fs (suffixes_of f) (keep f) []) as (_ & _ & _ & HK).
  destruct (scanSizes_spec fs (suffixes_of f) (clean f) []) as (_ & _ & _ & HC).
  apply HK in Hk. apply HC in Hp. done.
Qed.

Lemma bucket_singleton sz (l : list string) sz' :
  bucket {[sz := l]} sz' = if decide (sz = sz') then l else [].
Proof.
  unfold bucket. destruct (decide (sz = sz')) as [->|Hne].
  - by rewrite lookup_singleton_eq.
  - by rewrite lookup_singleton_ne.
Qed.

(** X15: when no file of the keep scan is a file of the clean scan, a run
    leaves every file of the keep scan in the store as it was. *)
Theorem keep_tree_untouched_when_scans_disjoint Sum256 (R : MapRange) f
    (fs : filesystem) :
  (∀ p sz sz', found fs (suffixes_of f) (keep f) p sz →
               ¬ found fs (suffixes_of f) (clean f) p sz') →
  ∀ p sz, found fs (suffixes_of f) (keep f) p sz →
          disk (main Sum256 f (World fs [])).1 !! p = fs !! p.
Proof.
  intros Hdisj p sz Hp.
  destruct (main_only_unlinks_clean_dups Sum256 f fs p)
    as [H|(_ & _ & k & sz' & d & _ & Hc & _)]; [done|].
  destruct (scanSizes_spec fs (suffixes_of f) (clean f) []) as (_ & _ & _ & HC).
  apply HC in Hc. by destruct (Hdisj p sz sz').
Qed.

Lemma keep_tree_untouched_when_scans_disjoint_witness :
  disk (main plain_digest (Flags "k" "c" false "txt") (World scenario_fs [])).1
    !! "k/A.txt" = scenario_fs !! "k/A.txt".
Proof.
  assert (sizes scenario_fs "k" ["txt"] = {[10 := ["k/A.txt"]]}) as Hs1
      by (vm_compute; reflexivity).
  assert (sizes scenario_fs "c" ["txt"] = {[10 := ["c/B.txt"; "c/C.txt"]]})
    as Hs2 by (vm_compute; reflexivity).
  destruct (scanSizes_spec scenario_fs ["txt"] "k" []) as (_ & _ & _ & HK).
  destruct (scanSizes_spec scenario_fs ["txt"] "c" []) as (_ & _ & _ & HC).
  rewrite Hs1 in HK. rewrite Hs2 in HC.
  assert (∀ p sz sz', found scenario_fs ["txt"] "k" p sz →
                      ¬ found scenario_fs ["txt"] "c" p sz') as Hdisj.
  { intros p sz sz' Hk%HK Hc%HC. rewrite bucket_singleton in Hk, Hc.
    destruct (decide (10 = sz)); [|by apply elem_of_nil in Hk].
    destruct (decide (10 = sz')); [|by apply elem_of_nil in Hc].
    apply list_elem_of_singleton in Hk as ->.
    apply elem_of_cons in Hc as [?|Hc]; [done|].
    by apply list_elem_of_singleton in Hc. }
  assert (found scenario_fs ["txt"] "k" "k/A.txt" 10) as Hfound.
  { apply HK. rewrite bucket_singleton. rewrite decide_True by done. by left. }
  exact (keep_tree_untouched_when_scans_disjoint plain_digest range_canonical
           (Flags "k" "c" false "txt") scenario_fs Hdisj "k/A.txt" 10 Hfound).
Defined.

(** ** What the log says about unreadable files *)

Lemma appends_ret {A} Q (a : A) : appends Q (ret a).
Proof. intros w. exists []. by rewrite app_nil_r. Qed.

Lemma appends_osExit {A} Q site : appends Q (@osExit A site).
Proof. intros w. exists []. by rewrite app_nil_r. Qed.

Lemma appends_logPrintf (Q : logline → Prop) l : Q l → appends Q (logPrintf l).
Proof. intros H w. exists [l]. split; [done | by constructor]. Qed.

Lemma appends_osOpen Q path : appends Q (osOpen path).
Proof. intros w. exists []. by rewrite app_nil_r. Qed.

Lemma appends_osRemove Q path : appends Q (osRemove path).
Proof.
  intros w. exists []. unfold osRemove. destruct (Remove _ _).
  by rewrite app_nil_r.
Qed.

Lemma appends_bind {A B} Q (m : M A) (k : A → M B) :
  appends Q m → (∀ a, appends Q (k a)) → appends Q (bind m k).
Proof.
  intros Hm Hk w. unfold bind. destruct (Hm w) as (x & Hx & HQ).
  destruct (m w) as [w1 [a|s|]]; cbn [fst] in *; [|by eauto|by eauto].
  destruct (Hk a w1) as (y & Hy & HQy). exists (x ++ y).
  rewrite Hy, Hx, app_assoc. split; [done | by apply Forall_app].
Qed.

Lemma appends_forM {A B} Q (l : list A) (body : A → B → M B) :
  (∀ x b, x ∈ l → appends Q (body x b)) → ∀ acc, appends Q (forM l acc body).
Proof.
  induction l as [|x l IH]; intros H acc; cbn [forM]; [apply appends_ret|].
  apply appends_bind; [apply H; by left|].
  intros b. apply IH. intros y c Hy. apply H. by right.
Qed.

Lemma appends_scanHashes Sum256 (S : string → Prop) paths :
  (∀ p, p ∈ paths → S p) → appends (within S) (scanHashes Sum256 paths).
Proof.
  intros HS. unfold scanHashes.
  apply appends_bind; [|intros; apply appends_ret].
  apply appends_forM. intros p files Hp. unfold scanHashes_body.
  apply appends_bind; [apply appends_osOpen|].
  intros [e|[e|data]]; [| |apply appends_ret].
  - apply appends_bind; [|intros; apply appends_ret].
    apply appends_logPrintf. intros q [= <-]. by apply HS.
  - apply appends_bind; [|intros; apply appends_ret].
    apply appends_logPrintf. intros q [= <-]. by apply HS.
Qed.

Lemma appends_main_dup_body S dry size cleaners entry acc :
  appends (within S) (main_dup_body dry size cleaners entry acc).
Proof.
  destruct entry as [key keeppath], acc as [fc bc]. unfold main_dup_body.
  destruct (cleaners !! key) as [cleanpath|]; [|apply appends_ret].
  apply appends_bind; [|intros; apply appends_ret].
  destruct dry; [by apply appends_logPrintf|].
  apply appends_bind; [by apply appends_logPrintf|]. intros _.
  apply appends_bind; [apply appends_osRemove|].
  intros [e|]; [|apply appends_ret].
  apply appends_bind; [by apply appends_logPrintf | intros; apply appends_osExit].
Qed.

Lemma appends_main_size_body Sum256 {R : MapRange} KS CS dry e acc :
  KS !! e.1 = Some e.2 →
  appends (within (collides KS CS)) (main_size_body Sum256 dry CS e acc).
Proof.
  destruct e as [size kn]. cbn [fst snd]. intros HK. unfold main_size_body.
  destruct (CS !! size) as [cn|] eqn:HC; [|apply appends_ret].
  apply appends_bind.
  { apply appends_scanHashes. intros p Hp. exists size, kn, cn. auto. }
  intros [keepers err]. destruct (not_nil err); [apply appends_osExit|].
  apply appends_bind.
  { apply appends_scanHashes. intros p Hp. exists size, kn, cn. auto. }
  intros [cleaners err']. destruct (not_nil err'); [apply appends_osExit|].
  apply appends_forM. intros. apply appends_main_dup_body.
Qed.

Lemma Walk_invariant {St : Type} (P : St → Prop) (fs : filesystem)
    (fn : WalkFunc St) root s r :
  (∀ path info err s, P s → P (fn path info err s).1) →
  P s → Walk fs root fn s = Some r → P r.1.
Proof.
  intros Hfn Hs. unfold Walk.
  destruct (Lstat fs root) as [e|info].
  - pose proof (Hfn root None (Some e) s Hs) as H1.
    destruct (fn root None (Some e) s) as [s1 err].
    destruct (_ || _); intros [= <-]; exact H1.
  - destruct (walk _ fs root info fn s) as [[s1 err]|] eqn:Hw; [|done].
    pose proof (walk_invariant P fs fn Hfn _ _ _ _ _ Hs Hw) as H1.
    destruct (_ || _); intros [= <-]; exact H1.
Qed.

Lemma scanSizes_fn_walk_lines sfx path info err s :
  Forall (λ l, skipped_path l = None) s.2 →
  Forall (λ l, skipped_path l = None) (scanSizes_fn sfx path info err s).1.2.
Proof.
  destruct s as [names lg]. intros Hs. unfold scanSizes_fn.
  destruct err; [apply Forall_app; split; [done | by repeat constructor]|].
  destruct info as [info|]; [|done].
  destruct (negb _); [done|]. by destruct (_ && _).
Qed.

(** [scanSizes] logs no line about a file that could not be read. *)
Lemma scanSizes_walk_lines (fs : filesystem) root sfx lg x r :
  scanSizes root sfx (World fs lg) = (World fs (lg ++ x), r) →
  Forall (λ l, skipped_path l = None) x.
Proof.
  unfold scanSizes. cbn [disk logged].
  destruct (Walk fs root (scanSizes_fn sfx) (∅, [])) as [[[names lg'] err]|]
    eqn:HW.
  - pose proof (Walk_invariant
                  (λ s : gmap Z (list string) * list logline,
                     Forall (λ l, skipped_path l = None) s.2)
                  fs (scanSizes_fn sfx) root (∅, []) _
                  (scanSizes_fn_walk_lines sfx) (Forall_nil_2 _) HW) as H.
    cbn [fst snd] in H.
    destruct err as [e|]; intros [= Heq%app_inv_head _]; subst x; [|done].
    apply Forall_app. split; [done | by repeat constructor].
  - intros [= Heq _]. rewrite <-(app_nil_r lg) in Heq at 1.
    apply app_inv_head in Heq. by subst x.
Qed.

Lemma main_shape_lines Sum256 {R : MapRange} f (fs : filesystem) :
  keep f ≠ "" → clean f ≠ "" →
  ∃ lg1,
    Forall (λ l, skipped_path l = None) lg1
    ∧ main Sum256 f (World fs [])
      = match forM (range (sizes fs (keep f) (suffixes_of f))) (0, 0)
                   (main_size_body Sum256 (dry f)
                      (sizes fs (clean f) (suffixes_of f)))
                   (World fs lg1)
        with
        | (w', Ok acc) =>
            (World (disk w') (logged w' ++ [LogSummary acc.1 acc.2]), Ok tt)
        | (w', Exit site) => (w', Exit site)
        | (w', Stuck) => (w', Stuck)
        end.
Proof.
  intros Hk Hc. unfold main.
  rewrite (bool_decide_eq_false_2 _ Hk), (bool_decide_eq_false_2 _ Hc).
  cbn [orb]. fold (suffixes_of f).
  set (lg0 := if dry f then [LogDryRun] else []).
  destruct (scanSizes_spec fs (suffixes_of f) (keep f)
              (lg0 ++ [LogScanning (keep f)])) as (x1 & H1 & _).
  pose proof (scanSizes_walk_lines _ _ _ _ _ _ H1) as Hx1.
  set (KS := sizes fs (keep f) (suffixes_of f)) in *.
  destruct (scanSizes_spec fs (suffixes_of f) (clean f)
              ((((lg0 ++ [LogScanning (keep f)]) ++ x1)
                ++ [LogKeepSizes (Z.of_nat (size KS))])
               ++ [LogScanning (clean f)])) as (x2 & H2 & _).
  pose proof (scanSizes_walk_lines _ _ _ _ _ _ H2) as Hx2.
  set (CS := sizes fs (clean f) (suffixes_of f)) in *.
  exists ((((((lg0 ++ [LogScanning (keep f)]) ++ x1)
              ++ [LogKeepSizes (Z.of_nat (size KS))])
             ++ [LogScanning (clean f)]) ++ x2)
           ++ [LogCleanSizes (Z.of_nat (size CS))]).
  split.
  - repeat (apply Forall_app; split); try done; try (by repeat constructor).
    unfold lg0. destruct (dry f); by repeat constructor.
  - unfold bind at 1.
    assert ((if dry f then logPrintf LogDryRun else ret tt) (World fs [])
            = (World fs lg0, Ok tt)) as -> by (unfold lg0; by destruct (dry f)).
    unfold bind at 1, logPrintf at 1. cbn [disk logged].
    unfold bind at 1. rewrite H1. cbn [not_nil].
    unfold bind at 1, logPrintf at 1. cbn [disk logged].
    unfold bind at 1, logPrintf at 1. cbn [disk logged].
    unfold bind at 1. rewrite H2. cbn [not_nil].
    unfold bind at 1, logPrintf at 1. cbn [disk logged].
    unfold bind at 1.
    match goal with |- context [forM ?a ?b ?c ?d] =>
      destruct (forM a b c d) as [w' [[fc bc]|site|]] end; reflexivity.
Qed.

Lemma scanHashes_exact Sum256 (fs : filesystem) lg paths :
  scanHashes Sum256 paths (World fs lg)
  = (World fs (lg ++ omap (skip_line fs) paths),
     Ok (hashes Sum256 fs paths, None)).
Proof.
  unfold scanHashes.
  by rewrite (bind_Ok _ _ _ _ _ (forM_scanHashes_exact Sum256 fs paths lg ∅)).
Qed.

Lemma main_size_body_dry_exact Sum256 {R : MapRange} (fs : filesystem) CS e
    acc lg :
  main_size_body Sum256 true CS e acc (World fs lg)
  = (World fs (lg ++ size_lines Sum256 fs CS e),
     Ok (tally e.1 acc (size_dups Sum256 fs CS e))).
Proof.
  destruct e as [size kn]. unfold main_size_body, size_lines, size_dups.
  cbn [fst snd]. destruct (CS !! size) as [cn|]; [|cbn; by rewrite app_nil_r].
  rewrite (bind_Ok _ _ _ _ _ (scanHashes_exact Sum256 fs lg kn)).
  cbv beta iota. cbn [not_nil].
  rewrite (bind_Ok _ _ _ _ _ (scanHashes_exact Sum256 fs _ cn)).
  cbv beta iota. cbn [not_nil].
  rewrite forM_dups_dry. by rewrite <-!app_assoc.
Qed.

Lemma forM_sizes_dry_exact Sum256 {R : MapRange} (fs : filesystem) CS l :
  ∀ lg acc,
    forM l acc (main_size_body Sum256 true CS) (World fs lg)
    = (World fs (lg ++ l ≫= size_lines Sum256 fs CS),
       Ok (tally_all Sum256 fs CS acc l)).
Proof.
  induction l as [|e l IH]; intros lg acc.
  - cbn. by rewrite app_nil_r.
  - cbn [forM].
    rewrite (bind_Ok _ _ _ _ _ (main_size_body_dry_exact Sum256 fs CS e acc lg)).
    by rewrite IH, tally_all_cons, bind_cons, app_assoc.
Qed.

Lemma skip_line_path (fs : filesystem) q line p :
  skip_line fs q = Some line → skipped_path line = Some p →
  q = p ∧ unreadable fs p.
Proof.
  unfold skip_line, unreadable.
  destruct (Open fs q) as [e|[e|data]] eqn:HO; intros [= <-] [= <-];
    (split; [done|]); eauto.
Qed.

Lemma skip_line_unreadable (fs : filesystem) p :
  unreadable fs p →
  ∃ line, skip_line fs p = Some line ∧ skipped_path line = Some p.
Proof. unfold skip_line. intros [[e ->]|[e ->]]; eauto. Qed.

Lemma size_lines_skipped Sum256 {R : MapRange} (fs : filesystem)
    (KS CS : gmap Z (list string)) e p :
  KS !! e.1 = Some e.2 →
  (∃ line, line ∈ size_lines Sum256 fs CS e ∧ skipped_path line = Some p)
  ↔ (∃ cn, CS !! e.1 = Some cn ∧ (p ∈ e.2 ∨ p ∈ cn)) ∧ unreadable fs p.
Proof.
  intros HK. unfold size_lines. destruct (CS !! e.1) as [cn|]; split.
  - intros (line & Hin & Hsp). rewrite !elem_of_app in Hin.
    destruct Hin as [Hin|[Hin|Hin]].
    + apply list_elem_of_omap in Hin as (q & Hq & Hl).
      destruct (skip_line_path _ _ _ _ Hl Hsp) as [-> Hun]. eauto 6.
    + apply list_elem_of_omap in Hin as (q & Hq & Hl).
      destruct (skip_line_path _ _ _ _ Hl Hsp) as [-> Hun]. eauto 6.
    + apply list_elem_of_fmap in Hin as (pr & -> & _). done.
  - intros [(cn' & [= <-] & Hp) Hun].
    destruct (skip_line_unreadable fs p Hun) as (line & Hl & Hsp).
    exists line. split; [|done]. rewrite !elem_of_app.
    destruct Hp as [Hp|Hp]; [left | right; left];
      apply list_elem_of_omap; eauto.
  - by intros (line & Hin%elem_of_nil & _).
  - by intros [(cn & [=] & _) _].
Qed.

(** X16: a line about a file that could not be opened or read for its
    digest is logged only for a path filed under a size that both scans
    found, so files of a size found on one side only are never reported as
    unreadable; and a dry run with both roots given logs such a line for a
    path exactly when the path is filed under such a size and cannot be
    read. *)
Theorem read_failures_logged_for_size_collisions_only Sum256 (R : MapRange)
    f (fs : filesystem) :
  (∀ l p,
      l ∈ logged (main Sum256 f (World fs [])).1 → skipped_path l = Some p →
      collides (sizes fs (keep f) (suffixes_of f))
               (sizes fs (clean f) (suffixes_of f)) p)
  ∧ (keep f ≠ "" → clean f ≠ "" → dry f = true →
     ∀ p,
       (∃ l, l ∈ logged (main Sum256 f (World fs [])).1
             ∧ skipped_path l = Some p)
       ↔ collides (sizes fs (keep f) (suffixes_of f))
                  (sizes fs (clean f) (suffixes_of f)) p
         ∧ unreadable fs p).
Proof.
  set (KS := sizes fs (keep f) (suffixes_of f)).
  set (CS := sizes fs (clean f) (suffixes_of f)).
  split.
  - intros l p.
    destruct (decide (keep f = "")) as [Hk|Hk].
    { rewrite main_usage by (by left). cbn.
      intros Hl%list_elem_of_singleton. by subst l. }
    destruct (decide (clean f = "")) as [Hc|Hc].
    { rewrite main_usage by (by right). cbn.
      intros Hl%list_elem_of_singleton. by subst l. }
    destruct (main_shape_lines Sum256 f fs Hk Hc) as (lg1 & Hlg1 & ->).
    fold KS CS.
    destruct (appends_forM (within (collides KS CS)) (range KS)
                (main_size_body Sum256 (dry f) CS)
                (λ e b He, appends_main_size_body Sum256 KS CS (dry f) e b
                             (proj1 (range_elem_of KS e.1 e.2)
                                    ltac:(by destruct e)))
                (0, 0) (World fs lg1)) as (x & Hx & HQ).
    cbn [logged] in Hx.
    assert (∀ l, l ∈ lg1 ++ x → skipped_path l = Some p → collides KS CS p)
      as Hin.
    { intros l' [Hl|Hl]%elem_of_app Hsp.
      - rewrite Forall_forall in Hlg1. apply Hlg1 in Hl. congruence.
      - rewrite Forall_forall in HQ. by apply (HQ l' Hl p). }
    destruct (forM _ _ _ _) as [w' [acc|site|]]; cbn [fst logged] in *;
      rewrite Hx; [|apply Hin|apply Hin].
    intros [Hl|Hl%list_elem_of_singleton]%elem_of_app;
      [by apply Hin | by subst l].
  - intros Hk Hc Hdry p.
    destruct (main_shape_lines Sum256 f fs Hk Hc) as (lg1 & Hlg1 & ->).
    rewrite Hdry. fold KS CS. rewrite forM_sizes_dry_exact. cbn [fst logged].
    rewrite Forall_forall in Hlg1. split.
    + intros (l & Hl & Hsp). rewrite !elem_of_app in Hl.
      destruct Hl as [[Hl|Hl]|Hl].
      * apply Hlg1 in Hl. congruence.
      * apply list_elem_of_bind in Hl as ([sz kn] & Hl & He).
        apply range_elem_of in He.
        destruct (proj1 (size_lines_skipped Sum256 fs KS CS (sz, kn) p He))
          as [(cn & HC & Hp) Hun]; [by eauto|].
        split; [by exists sz, kn, cn | done].
      * apply list_elem_of_singleton in Hl as ->. done.
    + intros [(sz & kn & cn & HK & HC & Hp) Hun].
      destruct (proj2 (size_lines_skipped Sum256 fs KS CS (sz, kn) p HK))
        as (line & Hline & Hsp); [by eauto|].
      exists line. split; [|done]. rewrite !elem_of_app. left. right.
      apply list_elem_of_bind. exists (sz, kn).
      split; [done | by apply range_elem_of].
Qed.

Lemma read_failures_logged_for_size_collisions_only_witness :
  (∃ l, l ∈ logged (main plain_digest (Flags "k" "c" true "txt")
                         (World unreadable_fs [])).1
        ∧ skipped_path l = Some "c/B.txt")
  ∧ ¬ (∃ l, l ∈ logged (main plain_digest (Flags "k" "c" true "txt")
                             (World unreadable_fs [])).1
            ∧ skipped_path l = Some "c/C.txt").
Proof.
  destruct (read_failures_logged_for_size_collisions_only plain_digest
              range_canonical (Flags "k" "c" true "txt") unreadable_fs)
    as [_ H].
  specialize (H ltac:(done) ltac:(done) eq_refl).
  assert (sizes unreadable_fs "k" ["txt"] = {[10 := ["k/A.txt"]]}) as Hs1
      by (vm_compute; reflexivity).
  assert (sizes unreadable_fs "c" ["txt"]
          = <[7 := ["c/C.txt"]]> {[10 := ["c/B.txt"]]}) as Hs2
      by (vm_compute; reflexivity).
  change (suffixes_of (Flags "k" "c" true "txt")) with ["txt"] in H.
  cbn [keep clean] in H. rewrite Hs1, Hs2 in H.
  split.
  - apply H. split.
    + exists 10, ["k/A.txt"], ["c/B.txt"].
      split; [reflexivity|]. split; [reflexivity|]. right. by left.
    + left. eexists. reflexivity.
  - intros [(sz & kn & cn & HK & HC & Hp) _]%H.
    apply lookup_singleton_Some in HK as [<- <-].
    vm_compute in HC. injection HC as <-.
    destruct Hp as [Hp|Hp]; apply list_elem_of_singleton in Hp; done.
Defined.
